(** * ci/jobs/docker_server_from_binary.py

    A shallow embedding of the CI job that stages a prebuilt ClickHouse
    binary, optionally logs in to the registry and builds the
    clickhouse-server image, together with the properties of its
    command pipeline.

    Layout:
    - [PyStr]     : the few Python string operations the script relies on;
    - [Argparse]  : the fragment of the standard [argparse] module that
                    [parse_args] configures;
    - [Praktika]  : the command runner, secret store and result helpers of
                    ci/praktika, as far as the job uses them;
    - [Job]       : [parse_args], [docker_login] and [main] themselves;
    - [Obs], [Cmdline] : the vocabulary in which runs and command lines
                    are observed;
    - the properties, stated over the traces of [Job.main]. *)

From Stdlib Require Import String Ascii List ZArith Bool Lia.
Import ListNotations.
Open Scope string_scope.

(* ------------------------------------------------------------------ *)
(** ** Python strings *)

Module PyStr.

(** [c in s] for a one-character [c]. *)
Fixpoint contains_char (c : ascii) (s : string) : bool :=
  match s with
  | EmptyString => false
  | String d r => Ascii.eqb c d || contains_char c r
  end.

(** [s.split('=', 1)] when ['=' in s]; [None] when it is not. *)
Fixpoint split_eq (s : string) : option (string * string) :=
  match s with
  | EmptyString => None
  | String c r =>
      if Ascii.eqb c "=" then Some (EmptyString, r)
      else match split_eq r with
           | Some (a, b) => Some (String c a, b)
           | None => None
           end
  end.

(** [s.startswith(p)]. *)
Definition startswith (s p : string) : bool := String.prefix p s.

(** Command-line strings are kept as their UTF-8 encoding.  Every
    character the parser looks for (["-"], ["="], [" "], the option
    strings) is ASCII, so that looking for it byte by byte or character by
    character is the same; only the class [\d] of the regular expressions
    ranges over characters beyond ASCII. *)

(** the code points of category Nd (decimal digits) in Unicode 14.0, the
    version of CPython 3.11, as inclusive ranges; they are what [\d]
    matches in a [str] pattern *)
Definition decimal_ranges : list (N * N) :=
  [ (48, 57); (1632, 1641); (1776, 1785); (1984, 1993);
    (2406, 2415); (2534, 2543); (2662, 2671); (2790, 2799);
    (2918, 2927); (3046, 3055); (3174, 3183); (3302, 3311);
    (3430, 3439); (3558, 3567); (3664, 3673); (3792, 3801);
    (3872, 3881); (4160, 4169); (4240, 4249); (6112, 6121);
    (6160, 6169); (6470, 6479); (6608, 6617); (6784, 6793);
    (6800, 6809); (6992, 7001); (7088, 7097); (7232, 7241);
    (7248, 7257); (42528, 42537); (43216, 43225); (43264, 43273);
    (43472, 43481); (43504, 43513); (43600, 43609); (44016, 44025);
    (65296, 65305); (66720, 66729); (68912, 68921); (69734, 69743);
    (69872, 69881); (69942, 69951); (70096, 70105); (70384, 70393);
    (70736, 70745); (70864, 70873); (71248, 71257); (71360, 71369);
    (71472, 71481); (71904, 71913); (72016, 72025); (72784, 72793);
    (73040, 73049); (73120, 73129); (92768, 92777); (92864, 92873);
    (93008, 93017); (120782, 120831); (123200, 123209); (123632, 123641);
    (125264, 125273); (130032, 130041) ]%N.

Definition is_decimal (cp : N) : bool :=
  existsb (fun r => N.leb (fst r) cp && N.leb cp (snd r)) decimal_ranges.

(** the payload of a UTF-8 continuation byte *)
Definition continuation (c : ascii) : option N :=
  let b := N_of_ascii c in
  if N.leb 128 b && N.ltb b 192 then Some (b - 128)%N else None.

(** the first character of a UTF-8 string and what follows it; [None]
    when the string is empty or does not start with a well-formed
    sequence (overlong forms and surrogates are not well formed) *)
Definition decode1 (s : string) : option (N * string) :=
  match s with
  | EmptyString => None
  | String c0 r0 =>
      let b0 := N_of_ascii c0 in
      if N.ltb b0 128 then Some (b0, r0)
      else if N.ltb b0 192 then None
      else if N.ltb b0 224 then
        match r0 with
        | String c1 r1 =>
            match continuation c1 with
            | Some x1 =>
                let cp := ((b0 - 192) * 64 + x1)%N in
                if N.leb 128 cp then Some (cp, r1) else None
            | None => None
            end
        | EmptyString => None
        end
      else if N.ltb b0 240 then
        match r0 with
        | String c1 (String c2 r2) =>
            match continuation c1, continuation c2 with
            | Some x1, Some x2 =>
                let cp := (((b0 - 224) * 64 + x1) * 64 + x2)%N in
                if N.leb 2048 cp && negb (N.leb 55296 cp && N.leb cp 57343)
                then Some (cp, r2) else None
            | _, _ => None
            end
        | _ => None
        end
      else if N.ltb b0 248 then
        match r0 with
        | String c1 (String c2 (String c3 r3)) =>
            match continuation c1, continuation c2, continuation c3 with
            | Some x1, Some x2, Some x3 =>
                let cp := ((((b0 - 240) * 64 + x1) * 64 + x2) * 64 + x3)%N in
                if N.leb 65536 cp && N.leb cp 1114111
                then Some (cp, r3) else None
            | _, _, _ => None
            end
        | _ => None
        end
      else None
  end.

(** the string after its first character, when that is a decimal digit *)
Definition after_digit (s : string) : option string :=
  match decode1 s with
  | Some (cp, r) => if is_decimal cp then Some r else None
  | None => None
  end.

(** [fuel] bounds the number of digits passed over; the length of the
    string is always enough *)
Fixpoint drop_digits_fuel (fuel : nat) (s : string) : string :=
  match fuel with
  | O => s
  | S fuel' =>
      match after_digit s with
      | Some r => drop_digits_fuel fuel' r
      | None => s
      end
  end.

(** the string without its leading decimal digits: what is left to match
    after [\d*] *)
Definition drop_digits (s : string) : string :=
  drop_digits_fuel (String.length s) s.

(** one or more decimal digits, and nothing else: [\d+] up to the end *)
Definition digits1 (s : string) : bool :=
  match s with
  | EmptyString => false
  | _ => match drop_digits s with
         | EmptyString => true
         | _ => false
         end
  end.

(** [s] without one final line feed, when it has one *)
Fixpoint chomp (s : string) : option string :=
  match s with
  | EmptyString => None
  | String c EmptyString =>
      if Ascii.eqb c "010" then Some EmptyString else None
  | String c r =>
      match chomp r with
      | Some r' => Some (String c r')
      | None => None
      end
  end.

(** [s[:2]] and [s[2:]] *)
Definition take2 (s : string) : string := String.substring 0 2 s.
Definition drop2 (s : string) : string :=
  String.substring 2 (String.length s - 2) s.

(** [s[n] == '-'] *)
Definition dash_at (n : nat) (s : string) : bool :=
  match String.get n s with
  | Some c => Ascii.eqb c "-"
  | None => false
  end.

(** membership in a tuple of strings *)
Definition mem (s : string) (l : list string) : bool :=
  existsb (String.eqb s) l.

End PyStr.

(* ------------------------------------------------------------------ *)
(** ** argparse

    The script only configures [argparse.ArgumentParser] and calls
    [parse_args]; what the parser then does with a command line is the
    standard library's.  This module embeds argparse.py of CPython 3.11
    for parsers of the shape the script builds: the automatic [-h/--help]
    action, [store] options taking exactly one argument (optionally
    restricted by [choices]), [store_true] flags, no positional arguments,
    prefix characters ["-"], abbreviations allowed.  The functions keep
    the names of the methods of [ArgumentParser] they follow.

    [type=str] is the identity on command-line strings and is not
    represented.  Usage errors end the process with status 2, the help
    action with status 0. *)

(** what an action stores in the namespace: a [str], or a list of [str] *)
Inductive Value :=
| VStr (s : string)
| VList (l : list string).

Module Argparse.

Section Parser.

(** the namespace the actions write into *)
Variable NS : Type.

Inductive Action :=
| HelpAction
| StoreTrueAction (set : NS -> NS)
| StoreAction (choices : option (list string)) (set : Value -> NS -> NS).

(** [_option_string_actions], in registration order *)
Variable option_string_actions : list (string * Action).

(** number of argument strings an action takes: [nargs=0] for help and
    [store_true], [nargs=None] (exactly one) for [store] *)
Definition nargs (a : Action) : nat :=
  match a with
  | StoreAction _ _ => 1
  | _ => 0
  end.

Fixpoint lookup_in (l : list (string * Action)) (s : string) : option Action :=
  match l with
  | [] => None
  | (o, a) :: r => if String.eqb o s then Some a else lookup_in r s
  end.

Definition lookup : string -> option Action := lookup_in option_string_actions.

(** [(action, option_string, explicit_arg)] *)
Inductive OptionTuple :=
| Tuple (action : option Action) (option_string : string)
        (explicit_arg : option string).

(** [_negative_number_matcher]: [^-\d+$|^-\d*\.\d+$] *)
Definition negative_number_body (s : string) : bool :=
  match s with
  | String c r =>
      Ascii.eqb c "-"
      && (PyStr.digits1 r
          || match PyStr.drop_digits r with
             | String d f => Ascii.eqb d "." && PyStr.digits1 f
             | EmptyString => false
             end)
  | EmptyString => false
  end.

Definition negative_number (s : string) : bool :=
  negative_number_body s
  || match PyStr.chomp s with
     | Some s' => negative_number_body s'
     | None => false
     end.

(** [_get_option_tuples], for an option string that starts with a
    prefix character (the only ones [_parse_optional] passes on) *)
Definition get_option_tuples (option_string : string) : list OptionTuple :=
  if PyStr.dash_at 0 option_string && PyStr.dash_at 1 option_string
  then
      let '(option_prefix, explicit_arg) :=
        match PyStr.split_eq option_string with
        | Some (p, e) => (p, Some e)
        | None => (option_string, None)
        end in
      flat_map (fun oa : string * Action =>
                  if PyStr.startswith (fst oa) option_prefix
                  then [Tuple (Some (snd oa)) (fst oa) explicit_arg]
                  else [])
               option_string_actions
  else
      let short_option_prefix := PyStr.take2 option_string in
      let short_explicit_arg := PyStr.drop2 option_string in
      flat_map (fun oa : string * Action =>
                  if String.eqb (fst oa) short_option_prefix
                  then [Tuple (Some (snd oa)) (fst oa) (Some short_explicit_arg)]
                  else if PyStr.startswith (fst oa) option_string
                  then [Tuple (Some (snd oa)) (fst oa) None]
                  else [])
               option_string_actions.

Inductive ParsedOptional :=
| Positional                 (* [return None] *)
| Optional (t : OptionTuple)
| Ambiguous.                 (* [self.error('ambiguous option ...')] *)

(** [_parse_optional] *)
Definition parse_optional (arg_string : string) : ParsedOptional :=
  match arg_string with
  | EmptyString => Positional
  | String _ tl =>
      if negb (PyStr.dash_at 0 arg_string) then Positional else
      match lookup arg_string with
      | Some a => Optional (Tuple (Some a) arg_string None)
      | None =>
          match tl with
          | EmptyString => Positional
          | _ =>
              let explicit :=
                match PyStr.split_eq arg_string with
                | Some (o, e) =>
                    match lookup o with
                    | Some a => Some (Tuple (Some a) o (Some e))
                    | None => None
                    end
                | None => None
                end in
              match explicit with
              | Some t => Optional t
              | None =>
                  match get_option_tuples arg_string with
                  | _ :: _ :: _ => Ambiguous
                  | [t] => Optional t
                  | [] =>
                      if negative_number arg_string then Positional
                      else if PyStr.contains_char " " arg_string then Positional
                      else Optional (Tuple None arg_string None)
                  end
              end
          end
      end
  end.

(** one letter of [arg_strings_pattern] *)
Inductive Pattern :=
| PatA                       (* 'A' *)
| PatDash                    (* '-' *)
| PatO (t : OptionTuple).    (* 'O', with the entry of [option_string_indices] *)

(** The first loop of [_parse_known_args]: every argument string with
    its pattern letter; [None] when a string is an ambiguous
    abbreviation. *)
Fixpoint classify (arg_strings : list string) : option (list (string * Pattern)) :=
  match arg_strings with
  | [] => Some []
  | s :: rest =>
      if String.eqb s "--"
      then Some ((s, PatDash) :: map (fun x => (x, PatA)) rest)
      else
        match parse_optional s with
        | Ambiguous => None
        | Positional =>
            option_map (cons (s, PatA)) (classify rest)
        | Optional t =>
            option_map (cons (s, PatO t)) (classify rest)
        end
  end.

(** [_match_argument] for an optional action ('--' is not allowed in
    its arguments): the number of following strings it takes, or
    [None] for the error "expected one argument". *)
Definition match_argument (a : Action) (following : list (string * Pattern))
  : option nat :=
  match nargs a with
  | O => Some O
  | _ =>
      match following with
      | (_, PatA) :: _ => Some 1
      | _ => None
      end
  end.

(** the strings an action is called with *)
Definition ActionTuple : Type := Action * list string.

(** [consume_optional], the branch without explicit argument *)
Definition consume_following (a : Action) (following : list (string * Pattern))
  : option (list ActionTuple * nat) :=
  match match_argument a following with
  | Some n => Some ([(a, map fst (firstn n following))], n)
  | None => None
  end.

(** [consume_optional], the branch with [explicit_arg] (which also
    splits a cluster of single-dash flags such as [-xyz]).  [None] is
    an [ArgumentError]. *)
Fixpoint consume_explicit (explicit_arg : string) (a : Action)
         (option_string : string) (following : list (string * Pattern))
  : option (list ActionTuple * nat) :=
  match nargs a with
  | O =>
      match explicit_arg with
      | String e0 e' =>
          if PyStr.dash_at 1 option_string
          then None                       (* ignored explicit argument *)
          else
            let option_string' := String "-" (String e0 EmptyString) in
            match lookup option_string' with
            | Some a' =>
                let more :=
                  match e' with
                  | EmptyString => consume_following a' following
                  | _ => consume_explicit e' a' option_string' following
                  end in
                match more with
                | Some (tuples, n) => Some ((a, []) :: tuples, n)
                | None => None
                end
            | None => None                (* ignored explicit argument *)
            end
      | EmptyString => None               (* ignored explicit argument *)
      end
  | _ => Some ([(a, [explicit_arg])], O)
  end.

Definition consume_optional (t : OptionTuple) (following : list (string * Pattern))
  : option (list ActionTuple * nat) :=
  match t with
  | Tuple (Some a) option_string None => consume_following a following
  | Tuple (Some a) option_string (Some e) =>
      consume_explicit e a option_string following
  | Tuple None _ _ => Some ([], O)
  end.

(** [_check_value] *)
Definition check_value (choices : option (list string)) (v : string) : bool :=
  match choices with
  | Some l => PyStr.mem v l
  | None => true
  end.

(** [list.remove(x)], a missing [x] being passed over *)
Fixpoint remove_first (x : string) (l : list string) : list string :=
  match l with
  | [] => []
  | y :: r => if String.eqb y x then r else y :: remove_first x r
  end.

(** [_get_values] for [nargs=None] and [nargs=0]: the first ["--"] among
    the argument strings is dropped; a single string left is the value,
    checked against [choices]; otherwise the value is the list of the
    strings left, each of them checked.  [None] is the error "invalid
    choice". *)
Definition get_values (choices : option (list string)) (arg_strings : list string)
  : option Value :=
  match remove_first "--" arg_strings with
  | [arg_string] =>
      if check_value choices arg_string then Some (VStr arg_string) else None
  | l => if forallb (check_value choices) l then Some (VList l) else None
  end.

(** [take_action]: the new namespace, or the exit status of the
    parser (0 after printing the help, 2 after a usage error).  The help
    and [store_true] actions get the empty list as their values and do
    not look at it. *)
Definition take_action (ns : NS) (t : ActionTuple) : Z + NS :=
  match t with
  | (HelpAction, _) => inl 0%Z
  | (StoreTrueAction set, _) => inr (set ns)
  | (StoreAction choices set, arg_strings) =>
      match get_values choices arg_strings with
      | Some value => inr (set value ns)
      | None => inl 2%Z
      end
  end.

Fixpoint take_actions (ns : NS) (l : list ActionTuple) : Z + NS :=
  match l with
  | [] => inr ns
  | t :: r =>
      match take_action ns t with
      | inl status => inl status
      | inr ns' => take_actions ns' r
      end
  end.

(** The main loop of [_parse_known_args] for a parser without
    positionals: the strings are visited left to right; [skip] counts
    the strings already taken as arguments of the previous option;
    strings that no option takes are collected in [extras]. *)
Fixpoint consume (items : list (string * Pattern)) (skip : nat)
         (ns : NS) (extras : list string) : Z + (NS * list string) :=
  match items with
  | [] => inr (ns, extras)
  | (s, p) :: rest =>
      match skip with
      | S k => consume rest k ns extras
      | O =>
          match p with
          | PatO (Tuple None _ _) => consume rest O ns (extras ++ [s])
          | PatO t =>
              match consume_optional t rest with
              | None => inl 2%Z
              | Some (tuples, n) =>
                  match take_actions ns tuples with
                  | inl status => inl status
                  | inr ns' => consume rest n ns' extras
                  end
              end
          | _ => consume rest O ns (extras ++ [s])
          end
      end
  end.

Inductive Outcome :=
| Parsed (ns : NS)
| Exit (status : Z).          (* [SystemExit] *)

(** [parse_args]: [parse_known_args], then the error
    "unrecognized arguments" when strings are left over. *)
Definition parse_args (defaults : NS) (arg_strings : list string) : Outcome :=
  match classify arg_strings with
  | None => Exit 2
  | Some items =>
      match consume items O defaults [] with
      | inl status => Exit status
      | inr (ns, []) => Parsed ns
      | inr (_, _ :: _) => Exit 2
      end
  end.

End Parser.

Arguments HelpAction {NS}.
Arguments StoreTrueAction {NS} set.
Arguments StoreAction {NS} choices set.
Arguments Tuple {NS} action option_string explicit_arg.
Arguments Parsed {NS} ns.
Arguments Exit {NS} status.
Arguments PatA {NS}.
Arguments PatDash {NS}.
Arguments PatO {NS} t.
Arguments Positional {NS}.
Arguments Optional {NS} t.
Arguments Ambiguous {NS}.

End Argparse.

(* ------------------------------------------------------------------ *)
(** ** praktika

    The job drives everything through ci/praktika ([Shell], [Secret],
    [Result], [Utils]).  A run is a computation over an environment that
    answers every external request, and it leaves a chronological trace of
    what it did. *)

Module Praktika.

(** Modelled from the spec: the "success/failure" of a result of
    ci/praktika/result.py. *)
Inductive Status := OK | FAIL.

(** Modelled from the spec: the "result record" of ci/praktika/result.py,
    "a named outcome (command name, success/failure, duration, log
    path)"; the log is kept as the captured output itself. *)
Record ResultEntry := mkResultEntry {
  name : string;
  status : Status;
  duration : Z;
  log : option string
}.

(** Modelled from the spec: the "final aggregate result" that the
    reporter of ci/praktika builds from the entries and the timer. *)
Record JobResult := mkJobResult {
  job_status : Status;
  job_duration : Z;
  results : list ResultEntry
}.

Inductive Event :=
| Exec (command : string) (stdin_str : option string)  (* a shell command was run *)
| SecretRead (key : string)                            (* a secret was fetched *)
| Report (job : JobResult).                            (* the job result was finalized *)

(** The world outside the process.  Every answer may depend on all that
    happened before it. *)
Record Env := mkEnv {
  shell : list Event -> string -> option string -> Z * string;
    (* exit status and output of a command, given its standard input *)
  secret_store : string -> string;
  clock : list Event -> Z
}.

(** how a computation ends *)
Inductive Res (A : Type) :=
| Ok (a : A)
| CommandFailed (command : string) (exit_code : Z)  (* raised by a strict command *)
| SysExit (exit_code : Z).                          (* [SystemExit] *)

Arguments Ok {A} a.
Arguments CommandFailed {A} command exit_code.
Arguments SysExit {A} exit_code.

Definition Run (A : Type) : Type := Env -> list Event -> Res A * list Event.

Definition ret {A} (a : A) : Run A := fun _ tr => (Ok a, tr).

Definition bind {A B} (m : Run A) (k : A -> Run B) : Run B :=
  fun env tr =>
    match m env tr with
    | (Ok a, tr') => k a env tr'
    | (CommandFailed c n, tr') => (CommandFailed c n, tr')
    | (SysExit n, tr') => (SysExit n, tr')
    end.

Module Shell.

(** Modelled from the spec: [Shell.check] of ci/praktika/utils.py,
    which is not part of the sources at hand.  It runs [command]
    (feeding it [stdin_str]) to completion and tells whether it exited
    with status 0; under [strict] "any non-zero exit code immediately
    aborts the entire job; no retry".  [verbose] only surfaces the
    command and its output in the job log; the [encoding] keyword
    concerns the byte encoding of [stdin_str]. *)
Definition check (command : string) (strict verbose : bool)
           (stdin_str : option string) : Run bool :=
  fun env tr =>
    let '(code, _) := shell env tr command stdin_str in
    let tr' := (tr ++ [Exec command stdin_str])%list in
    if Z.eqb code 0 then (Ok true, tr')
    else if strict then (CommandFailed command code, tr')
    else (Ok false, tr').

End Shell.

Module Secret.

Inductive Type_ := AWS_SSM_VAR.

(** Modelled from the spec: [Secret.Config(name, type).get_value()] of
    ci/praktika, "a secret store abstraction (external collaborator)"
    queried "by a fixed key". *)
Definition get_value (name : string) (type : Type_) : Run string :=
  fun env tr => (Ok (secret_store env name), (tr ++ [SecretRead name])%list).

End Secret.

Module Utils.

(** Modelled from the spec: [Utils.Stopwatch()], the "timer start" that
    is later handed to the reporter. *)
Definition Stopwatch : Run Z :=
  fun env tr => (Ok (clock env tr), tr).

End Utils.

Module Result.

(** Modelled from the spec: [Result.is_ok], whether the entry succeeded. *)
Definition is_ok (r : ResultEntry) : bool :=
  match status r with OK => true | FAIL => false end.

(** Modelled from the spec: [Result.from_commands_run] of
    ci/praktika/result.py.  It runs the command and "wraps the build
    invocation's exit status, duration, and log output into a result
    record"; a non-zero exit "is captured as a failed result entry"
    and nothing is raised. *)
Definition from_commands_run (name command : string) (with_log : bool)
  : Run ResultEntry :=
  fun env tr =>
    let start := clock env tr in
    let '(code, output) := shell env tr command None in
    let tr' := (tr ++ [Exec command None])%list in
    (Ok (mkResultEntry name
                       (if Z.eqb code 0 then OK else FAIL)
                       (clock env tr' - start)
                       (if with_log then Some output else None)),
     tr').

(** Modelled from the spec: [Result.create_from], which "takes the
    ordered list of result entries plus a timer start, produces a final
    aggregate result"; the aggregate fails "if any child result
    failed". *)
Definition create_from (results : list ResultEntry) (stopwatch : Z)
  : Run JobResult :=
  fun env tr =>
    (Ok (mkJobResult (if forallb is_ok results then OK else FAIL)
                     (clock env tr - stopwatch)
                     results),
     tr).

(** Modelled from the spec: [Result.complete_job], the "job
    finalization (writing/reporting status, propagating failure to the
    CI system's exit code if any child result failed)". *)
Definition complete_job (job : JobResult) : Run unit :=
  fun env tr =>
    (SysExit (match job_status job with OK => 0 | FAIL => 1 end),
     (tr ++ [Report job])%list).

End Result.

End Praktika.

Notation "x <- m ;; k" := (Praktika.bind m (fun x => k))
  (at level 61, m at next level, right associativity).
Notation "m ;;; k" := (Praktika.bind m (fun _ => k))
  (at level 61, right associativity).

(* ------------------------------------------------------------------ *)
(** ** The job: argument parsing *)

Module Job.

(** [args.tag_type] and [args.os] hold whatever the parser stored: the
    default, or the value made of the command line *)
Record Namespace := mkNamespace {
  tag_type : Value;
  push : bool;
  os : Value
}.

Definition set_tag_type (v : Value) (ns : Namespace) : Namespace :=
  mkNamespace v (push ns) (os ns).
Definition set_push (ns : Namespace) : Namespace :=
  mkNamespace (tag_type ns) true (os ns).
Definition set_os (v : Value) (ns : Namespace) : Namespace :=
  mkNamespace (tag_type ns) (push ns) v.

Definition tag_type_choices : list string := ["head"; "release"; "release-latest"].

(** the parser built by [parse_args]: [-h/--help] comes with
    [ArgumentParser], then the three [add_argument] calls *)
Definition parser_options : list (string * Argparse.Action Namespace) :=
  [ ("-h", Argparse.HelpAction);
    ("--help", Argparse.HelpAction);
    ("--tag-type", Argparse.StoreAction (Some tag_type_choices) set_tag_type);
    ("--push", Argparse.StoreTrueAction set_push);
    ("--os", Argparse.StoreAction None set_os) ].

Definition parser_defaults : Namespace :=
  mkNamespace (VStr "head") false (VList ["ubuntu"; "alpine"]).

(** [parse_args()], with [sys.argv[1:]] made explicit *)
Definition parse_args (argv : list string) : Argparse.Outcome Namespace :=
  Argparse.parse_args Namespace parser_options parser_defaults argv.

Import Praktika.

(** [sys.exit] out of [argparse] ends the run *)
Definition run_parser (argv : list string) : Run Namespace :=
  fun _ tr =>
    match parse_args argv with
    | Argparse.Parsed ns => (Ok ns, tr)
    | Argparse.Exit n => (SysExit n, tr)
    end.

Definition probe_command : string :=
  "docker system info | grep --quiet -E 'Username|Registry'".
Definition login_command : string :=
  "docker login --username 'robotclickhouse' --password-stdin".
Definition secret_key : string := "dockerhub_robot_password".

(** [def docker_login(relogin: bool = True)]; [None] stands for a call
    that leaves the parameter out.  [or] does not evaluate its right
    operand when the left one is true. *)
Definition docker_login (relogin : option bool) : Run unit :=
  let relogin := match relogin with Some b => b | None => true end in
  cond <- (if relogin then ret true
           else b <- Shell.check probe_command false false None ;;
                ret (negb b)) ;;
  if (cond : bool) then
    password <- Secret.get_value secret_key Secret.AWS_SSM_VAR ;;
    Shell.check login_command true false (Some password) ;;;
    ret tt
  else ret tt.

Definition image_path : string := "./ci/docker/clickhouse-server".
Definition image_repo : string := "clickhouse/clickhouse-server".

(** the white space a backslash-newline leaves inside the literal: the
    indentation of the continuation line *)
Definition indent : string := "                    ".

Definition copy_command : string :=
  "cp /tmp/praktika/input/clickhouse " ++ image_path ++ "/".

(** the f-string bound to [command] *)
Definition command : string :=
  "docker buildx build --platform linux/arm64 " ++ indent ++
  "-t " ++ image_repo ++ ":tmp " ++ image_path ++
  " -f " ++ image_path ++ "/from_binary/Dockerfile.ubuntu " ++ indent ++
  "--cache-from=type=local,src=/tmp/build-cache " ++ indent ++
  "--cache-to=type=local,dest=/tmp/build-cache".

Definition main (argv : list string) : Run unit :=
  stopwatch <- Utils.Stopwatch ;;
  args <- run_parser argv ;;
  let push := push args in
  Shell.check copy_command true true None ;;;
  (if push then docker_login None else ret tt) ;;;
  let results := [] in
  entry <- Result.from_commands_run (image_repo ++ ":tmp") command true ;;
  let results := (results ++ [entry])%list in
  job <- Result.create_from results stopwatch ;;
  Result.complete_job job.

(** a whole run of the script, from an empty history *)
Definition run (argv : list string) (env : Env) : Res unit * list Event :=
  main argv env [].

End Job.

(* ------------------------------------------------------------------ *)
(** ** Observations on runs *)

Module Obs.

Import Praktika Job.

(** the event is an execution of the shell command [c] *)
Definition is_exec (c : string) (e : Event) : bool :=
  match e with
  | Exec c' _ => String.eqb c' c
  | _ => false
  end.

Definition is_report (e : Event) : bool :=
  match e with
  | Report _ => true
  | _ => false
  end.

(** how often the command [c] was run *)
Definition count_exec (c : string) (tr : list Event) : nat :=
  length (filter (is_exec c) tr).

(** the result entries handed to the finalizer, in order *)
Definition reported (tr : list Event) : list ResultEntry :=
  flat_map (fun e => match e with Report job => results job | _ => [] end) tr.

(** every event satisfying [q] comes strictly after one satisfying [p] *)
Definition precedes (p q : Event -> bool) (tr : list Event) : Prop :=
  forall before e after,
    tr = (before ++ e :: after)%list -> q e = true -> existsb p before = true.

(** what the environment answers to the two strict commands of a run *)
Definition copy_status (env : Env) : Z :=
  fst (shell env [] copy_command None).

Definition credential (env : Env) : string := secret_store env secret_key.

Definition login_status (env : Env) : Z :=
  fst (shell env [Exec copy_command None; SecretRead secret_key]
             login_command (Some (credential env))).

(** the events up to the build, when nothing strict failed *)
Definition staged (push : bool) (env : Env) : list Event :=
  Exec copy_command None
  :: (if push
      then [SecretRead secret_key; Exec login_command (Some (credential env))]
      else []).

(** the strict commands of the run all exit with status 0 *)
Definition strict_ok (push : bool) (env : Env) : Prop :=
  copy_status env = 0%Z /\ (push = true -> login_status env = 0%Z).

(** what the environment answers to the build command *)
Definition build_status (push : bool) (env : Env) : Z :=
  fst (shell env (staged push env) command None).

Definition build_output (push : bool) (env : Env) : string :=
  snd (shell env (staged push env) command None).

(** the job result a run reports once it gets to the build *)
Definition built_job (push : bool) (env : Env) : JobResult :=
  let trace := (staged push env ++ [Exec command None])%list in
  let entry :=
    mkResultEntry (image_repo ++ ":tmp")
                  (if Z.eqb (build_status push env) 0 then OK else FAIL)
                  (clock env trace - clock env (staged push env))
                  (Some (build_output push env)) in
  mkJobResult (if Z.eqb (build_status push env) 0 then OK else FAIL)
              (clock env trace - clock env [])
              [entry].

(** the command strings of a trace, in order *)
Definition commands_of (tr : list Event) : list string :=
  flat_map (fun e => match e with Exec c _ => [c] | _ => [] end) tr.

(** the same environment with another credential in the secret store *)
Definition with_secret (env : Env) (s : string) : Env :=
  mkEnv (shell env) (fun _ => s) (clock env).

(** a decision procedure for [precedes]; [seen] tells whether an event
    satisfying [p] was met already *)
Fixpoint precedesb (p q : Event -> bool) (seen : bool) (tr : list Event) : bool :=
  match tr with
  | [] => true
  | e :: r => (negb (q e) || seen) && precedesb p q (seen || p e) r
  end.

(** the positions at which argparse selects the help action *)
Definition selects_help (arg_string : string) : bool :=
  match Argparse.parse_optional Namespace parser_options arg_string with
  | Argparse.Optional (Argparse.Tuple (Some Argparse.HelpAction) _ _) => true
  | _ => false
  end.

(** an argument string with its pattern letter *)
Definition Item : Type := string * Argparse.Pattern Namespace.

(** the pattern letter of a string that is neither ["--"] nor ambiguous *)
Definition pattern_of (s : string) : Argparse.Pattern Namespace :=
  match Argparse.parse_optional Namespace parser_options s with
  | Argparse.Optional t => Argparse.PatO t
  | _ => Argparse.PatA
  end.

Definition items_of (l : list string) : list Item :=
  map (fun s => (s, pattern_of s)) l.

Definition is_help_item (it : Item) : bool :=
  match snd it with
  | Argparse.PatO (Argparse.Tuple (Some Argparse.HelpAction) _ _) => true
  | _ => false
  end.

(** the option tuple of an item names an entry of the parser's table *)
Definition item_ok (it : Item) : Prop :=
  match snd it with
  | Argparse.PatO (Argparse.Tuple (Some a) o _) => In (o, a) parser_options
  | _ => True
  end.

(** [skip] strings may be passed over only if they are arguments *)
Definition skip_ok (skip : nat) (l : list Item) : Prop :=
  match skip with
  | 0 => True
  | 1 => match l with (_, Argparse.PatA) :: _ => True | _ => False end
  | _ => False
  end.

(** a rest of the command line on which the parser cannot succeed: it
    does not start with an argument, and consuming it ends in a usage
    error or with left-over strings *)
Definition doomed (tail : list Item) : Prop :=
  match tail with (_, Argparse.PatA) :: _ => False | _ => True end
  /\ forall ns extras,
      match Argparse.consume Namespace parser_options tail 0 ns extras with
      | inl st => st = 2%Z
      | inr (_, ex) => ex <> []
      end.

(** [tag_type_given v before attached argv]: on the command line
    [argv], after the strings [before], the option [--tag-type] (spelled
    out or abbreviated) is given the value [v]: as the next string
    ([attached = false]), or attached to the option with an equals sign
    ([attached = true]). *)
Inductive tag_type_given (v : string) (before : list string)
  : bool -> list string -> Prop :=
| given_next t a after :
    Argparse.parse_optional Namespace parser_options t
    = Argparse.Optional (Argparse.Tuple (Some a) "--tag-type" None) ->
    tag_type_given v before false (before ++ t :: v :: after)%list
| given_explicit t a after :
    Argparse.parse_optional Namespace parser_options t
    = Argparse.Optional (Argparse.Tuple (Some a) "--tag-type" (Some v)) ->
    tag_type_given v before true (before ++ t :: after)%list.

(** an environment in which every command succeeds *)
Definition env_ok : Env :=
  mkEnv (fun _ _ _ => (0%Z, "done")) (fun _ => "s3cret")
        (fun tr => Z.of_nat (length tr)).

(** an environment in which only the named command fails, with status 1 *)
Definition env_failing (c : string) : Env :=
  mkEnv (fun _ c' _ => if String.eqb c' c then (1%Z, "error") else (0%Z, "done"))
        (fun _ => "s3cret")
        (fun tr => Z.of_nat (length tr)).

End Obs.

(* ------------------------------------------------------------------ *)
(** ** Observations on command lines *)

Module Cmdline.

Import Praktika Job Obs.

(** the string selects the option registered under [name], spelled out or
    abbreviated, with or without an attached value *)
Definition selects (name : string) (arg_string : string) : bool :=
  match Argparse.parse_optional Namespace parser_options arg_string with
  | Argparse.Optional (Argparse.Tuple (Some _) o _) => String.eqb o name
  | _ => false
  end.

Definition is_opt_item (name : string) (it : Item) : bool :=
  match snd it with
  | Argparse.PatO (Argparse.Tuple (Some _) o _) => String.eqb o name
  | _ => false
  end.

(** the shell commands of a complete run, in the order of [main] *)
Definition pipeline (push : bool) : list string :=
  copy_command :: (if push then [login_command] else []) ++ [command].

Definition is_secret_read (e : Event) : bool :=
  match e with
  | SecretRead _ => true
  | _ => false
  end.

(** the string attaches to the option [name], with an equals sign, a
    value that is exactly ["--"] *)
Definition attaches_dashes (name : string) (arg_string : string) : bool :=
  match Argparse.parse_optional Namespace parser_options arg_string with
  | Argparse.Optional (Argparse.Tuple (Some _) o (Some e)) =>
      String.eqb o name && String.eqb e "--"
  | _ => false
  end.

Definition is_dashes_item (name : string) (it : Item) : bool :=
  match snd it with
  | Argparse.PatO (Argparse.Tuple (Some _) o (Some e)) =>
      String.eqb o name && String.eqb e "--"
  | _ => false
  end.

(** a string that counts as an argument is not the separator ["--"] *)
Definition arg_ok (it : Item) : Prop :=
  snd it = Argparse.PatA -> fst it <> "--".

(** the tag type is one of the three choices *)
Definition valid_tag (v : Value) : bool :=
  match v with
  | VStr s => PyStr.mem s tag_type_choices
  | VList _ => false
  end.

Definition is_str (v : Value) : bool :=
  match v with
  | VStr _ => true
  | VList _ => false
  end.

(** what the namespace after the loop owes to the strings it went through *)
Definition accounted (items : list Item) (ns ns' : Namespace) : Prop :=
  (valid_tag (tag_type ns) = true \/ tag_type ns = VList [] ->
   valid_tag (tag_type ns') = true \/ tag_type ns' = VList [])
  /\ (existsb (is_dashes_item "--tag-type") items = false ->
      valid_tag (tag_type ns) = true -> valid_tag (tag_type ns') = true)
  /\ push ns' = (push ns || existsb (is_opt_item "--push") items)%bool
  /\ (existsb (is_opt_item "--tag-type") items = false ->
      tag_type ns' = tag_type ns)
  /\ (if existsb (is_opt_item "--os") items
      then is_str (os ns') = true \/ os ns' = VList []
      else os ns' = os ns)
  /\ (existsb (is_dashes_item "--os") items = false ->
      existsb (is_opt_item "--os") items = true -> is_str (os ns') = true)
  /\ existsb is_help_item items = false.

End Cmdline.

Import Praktika Job Obs Cmdline.

(* ------------------------------------------------------------------ *)
(** ** The parser on some command lines *)

Example parse_no_flags :
  parse_args [] = Argparse.Parsed (mkNamespace (VStr "head") false (VList ["ubuntu"; "alpine"])).
Proof. reflexivity. Qed.

Example parse_all_flags :
  parse_args ["--tag-type=release-latest"; "--push"; "--os"; "alpine"]
  = Argparse.Parsed (mkNamespace (VStr "release-latest") true (VStr "alpine")).
Proof. reflexivity. Qed.

Example parse_abbreviated :
  parse_args ["--t"; "release"; "--p"]
  = Argparse.Parsed (mkNamespace (VStr "release") true (VList ["ubuntu"; "alpine"])).
Proof. reflexivity. Qed.

Example parse_last_value_wins :
  parse_args ["--tag-type"; "head"; "--tag-type"; "release"]
  = Argparse.Parsed (mkNamespace (VStr "release") false (VList ["ubuntu"; "alpine"])).
Proof. reflexivity. Qed.

Example parse_invalid_choice :
  parse_args ["--tag-type"; "nightly"] = Argparse.Exit 2.
Proof. reflexivity. Qed.

Example parse_missing_argument :
  parse_args ["--tag-type"; "--push"] = Argparse.Exit 2.
Proof. reflexivity. Qed.

Example parse_unrecognized :
  parse_args ["--push"; "--"; "--push"] = Argparse.Exit 2.
Proof. reflexivity. Qed.

Example parse_ambiguous :
  parse_args ["--help"; "--=x"] = Argparse.Exit 2.
Proof. reflexivity. Qed.

Example parse_help :
  parse_args ["--bogus"; "-h"] = Argparse.Exit 0.
Proof. reflexivity. Qed.

Example parse_negative_number :
  parse_args ["--os"; "-1.5"]
  = Argparse.Parsed (mkNamespace (VStr "head") false (VStr "-1.5"))
  /\ parse_args ["--os"; "-١"]
     = Argparse.Parsed (mkNamespace (VStr "head") false (VStr "-١"))
  /\ parse_args ["--os"; "-x"] = Argparse.Exit 2.
Proof. repeat split; reflexivity. Qed.

Example parse_dropped_separator :
  parse_args ["--os=--"; "--push"]
  = Argparse.Parsed (mkNamespace (VStr "head") true (VList [])).
Proof. reflexivity. Qed.

(* ------------------------------------------------------------------ *)
(** ** The shape of a run *)

Lemma run_rejected argv n env :
  parse_args argv = Argparse.Exit n ->
  run argv env = (SysExit n, []).
Proof.
  intros H. unfold run, main, bind, Utils.Stopwatch, run_parser.
  now rewrite H.
Qed.

Lemma run_copy_failed argv ns env :
  parse_args argv = Argparse.Parsed ns ->
  copy_status env <> 0%Z ->
  run argv env = (CommandFailed copy_command (copy_status env),
                  [Exec copy_command None]).
Proof.
  intros H Hc. unfold run, main, bind, Utils.Stopwatch, run_parser, Shell.check.
  rewrite H. unfold copy_status in *.
  destruct (shell env [] copy_command None) as [c o]; cbn [fst] in *.
  destruct (Z.eqb_spec c 0); [contradiction | reflexivity].
Qed.

Lemma run_login_failed argv ns env :
  parse_args argv = Argparse.Parsed ns ->
  push ns = true ->
  copy_status env = 0%Z ->
  login_status env <> 0%Z ->
  run argv env = (CommandFailed login_command (login_status env),
                  [Exec copy_command None; SecretRead secret_key;
                   Exec login_command (Some (credential env))]).
Proof.
  intros H Hp Hc Hl.
  unfold run, main, bind, Utils.Stopwatch, run_parser, Shell.check.
  rewrite H, Hp. unfold copy_status in Hc.
  destruct (shell env [] copy_command None) as [c o]; cbn [fst] in Hc; subst c.
  cbn [Z.eqb app]. unfold docker_login, bind, ret, Secret.get_value, Shell.check.
  cbn [app]. unfold login_status, credential in *.
  destruct (shell env _ login_command _) as [c o']; cbn [fst] in *.
  destruct (Z.eqb_spec c 0); [contradiction | reflexivity].
Qed.

Lemma run_built argv ns env :
  parse_args argv = Argparse.Parsed ns ->
  strict_ok (push ns) env ->
  run argv env =
    (SysExit (if Z.eqb (build_status (push ns) env) 0 then 0 else 1)%Z,
     (staged (push ns) env
        ++ [Exec command None; Report (built_job (push ns) env)])%list).
Proof.
  intros H [Hc Hl].
  unfold run, main, bind, Utils.Stopwatch, run_parser, Shell.check.
  rewrite H. unfold copy_status in Hc.
  destruct (shell env [] copy_command None) as [c o]; cbn [fst] in Hc; subst c.
  cbn [Z.eqb app].
  unfold built_job, build_status, build_output, staged.
  destruct (push ns).
  - specialize (Hl eq_refl).
    unfold docker_login, bind, ret, Secret.get_value, Shell.check.
    cbn [app]. unfold login_status, credential in *.
    destruct (shell env _ login_command _) as [c o']; cbn [fst] in Hl; subst c.
    cbn [Z.eqb app].
    unfold Result.from_commands_run, Result.create_from, Result.complete_job.
    destruct (shell env _ command None) as [c o'']; cbn [fst snd app].
    destruct (Z.eqb c 0); reflexivity.
  - unfold ret.
    unfold Result.from_commands_run, Result.create_from, Result.complete_job.
    destruct (shell env _ command None) as [c o'']; cbn [fst snd app].
    destruct (Z.eqb c 0); reflexivity.
Qed.

(** every accepted run has one of three shapes *)
Lemma run_accepted argv ns env :
  parse_args argv = Argparse.Parsed ns ->
  (copy_status env <> 0%Z /\
   run argv env = (CommandFailed copy_command (copy_status env),
                   [Exec copy_command None]))
  \/ (push ns = true /\ copy_status env = 0%Z /\ login_status env <> 0%Z /\
      run argv env = (CommandFailed login_command (login_status env),
                      [Exec copy_command None; SecretRead secret_key;
                       Exec login_command (Some (credential env))]))
  \/ (strict_ok (push ns) env /\
      run argv env =
        (SysExit (if Z.eqb (build_status (push ns) env) 0 then 0 else 1)%Z,
         (staged (push ns) env
            ++ [Exec command None; Report (built_job (push ns) env)])%list)).
Proof.
  intros H.
  destruct (Z.eq_dec (copy_status env) 0) as [Hc | Hc].
  2: { left. split; [assumption | now apply run_copy_failed with ns]. }
  right.
  destruct (push ns) eqn:Hp.
  - destruct (Z.eq_dec (login_status env) 0) as [Hl | Hl].
    + right. assert (Hs : strict_ok (push ns) env) by (rewrite Hp; now split).
      split; [now rewrite <- Hp | rewrite <- Hp; now apply run_built].
    + left. repeat split; try assumption. now apply run_login_failed with ns.
  - right. assert (Hs : strict_ok (push ns) env).
    { rewrite Hp. split; [assumption | discriminate]. }
    split; [now rewrite <- Hp | rewrite <- Hp; now apply run_built].
Qed.

Lemma precedesb_sound p q tr :
  forall seen before e after,
    precedesb p q seen tr = true ->
    tr = (before ++ e :: after)%list -> q e = true ->
    (seen || existsb p before)%bool = true.
Proof.
  induction tr as [| x tr IH]; intros seen before e after Hb Heq Hq.
  - now destruct before.
  - cbn [precedesb] in Hb. apply andb_true_iff in Hb as [Hx Hr].
    destruct before as [| y before]; cbn [app] in Heq;
      injection Heq as Hxy Htr; subst x tr.
    + rewrite Hq in Hx. cbn in Hx. now rewrite Hx.
    + specialize (IH _ _ _ _ Hr eq_refl Hq). cbn [existsb].
      destruct seen, (p y); cbn in *; auto.
Qed.

Lemma precedesb_precedes p q tr :
  precedesb p q false tr = true -> precedes p q tr.
Proof.
  intros H before e after Heq Hq.
  exact (precedesb_sound p q tr false before e after H Heq Hq).
Qed.

(** the three literals are pairwise different commands *)
Lemma commands_distinct :
  String.eqb copy_command login_command = false
  /\ String.eqb copy_command command = false
  /\ String.eqb login_command command = false
  /\ String.eqb probe_command copy_command = false
  /\ String.eqb probe_command login_command = false
  /\ String.eqb probe_command command = false.
Proof. repeat split; reflexivity. Qed.

Ltac by_shape H env :=
  let Hc := fresh "Hcopy" in
  let Hp := fresh "Hpush" in
  let Hl := fresh "Hlogin" in
  let Hok := fresh "Hok" in
  let Hrun := fresh "Hrun" in
  destruct (run_accepted _ _ env H)
    as [[Hc Hrun] | [[Hp [Hc [Hl Hrun]]] | [Hok Hrun]]];
  rewrite Hrun; cbn [fst snd].

(* ------------------------------------------------------------------ *)
(** ** The build command *)

(** C1: for every accepted invocation the build command is one fixed
    string, which targets the image reference
    clickhouse/clickhouse-server:tmp; two accepted invocations that differ
    only in [--tag-type] and [--os] (the same push flag) run identically in
    every environment, and whatever a run executes besides the copy and the
    login is exactly that fixed command line, with no standard input. *)
Theorem build_command_fixed argv1 argv2 ns1 ns2 env :
  parse_args argv1 = Argparse.Parsed ns1 ->
  parse_args argv2 = Argparse.Parsed ns2 ->
  push ns1 = push ns2 ->
  command =
    "docker buildx build --platform linux/arm64                     -t clickhouse/clickhouse-server:tmp ./ci/docker/clickhouse-server -f ./ci/docker/clickhouse-server/from_binary/Dockerfile.ubuntu                     --cache-from=type=local,src=/tmp/build-cache                     --cache-to=type=local,dest=/tmp/build-cache"
  /\ run argv1 env = run argv2 env
  /\ (forall c stdin,
         In (Exec c stdin) (snd (run argv1 env)) ->
         c <> copy_command -> c <> login_command ->
         c = command /\ stdin = None).
Proof.
  intros H1 H2 Hp. split; [reflexivity | split].
  - unfold run, main, bind, run_parser, Utils.Stopwatch.
    now rewrite H1, H2, Hp.
  - intros c stdin Hin Hncp Hnlg.
    assert (Hall : Forall (fun e => forall c' s', e = Exec c' s' ->
                              c' = copy_command \/ c' = login_command
                              \/ (c' = command /\ s' = None))
                          (snd (run argv1 env))).
    { by_shape H1 env; unfold staged; try destruct (push ns1); cbn [app];
        repeat (first [ apply Forall_nil
                      | apply Forall_cons;
                        [ intros c' s' E;
                          first [ discriminate E
                                | injection E as <- <-; auto ] | ] ]). }
    rewrite Forall_forall in Hall.
    destruct (Hall _ Hin c stdin eq_refl) as [-> | [-> | Hb]];
      [contradiction | contradiction | exact Hb].
Qed.

Lemma build_command_fixed_witness :
  run ["--tag-type"; "release"; "--os"; "alpine"] env_ok = run [] env_ok
  /\ In (Exec command None) (snd (run [] env_ok)).
Proof.
  destruct (build_command_fixed
              ["--tag-type"; "release"; "--os"; "alpine"] []
              (mkNamespace (VStr "release") false (VStr "alpine")) parser_defaults
              env_ok eq_refl eq_refl eq_refl) as [_ [Hr _]].
  split; [exact Hr | ].
  vm_compute. right. left. reflexivity.
Defined.

(* ------------------------------------------------------------------ *)
(** ** Login and push *)

(** C3: when push is parsed as false, no docker login command is issued
    at any point of the run (and the secret store is not queried). *)
Theorem no_login_without_push argv ns env :
  parse_args argv = Argparse.Parsed ns ->
  push ns = false ->
  count_exec login_command (snd (run argv env)) = 0
  /\ ~ In (SecretRead secret_key) (snd (run argv env)).
Proof.
  intros H Hp. by_shape H env.
  - split; [reflexivity | ]. intros [Hin | []]. discriminate.
  - congruence.
  - rewrite Hp. cbn [staged app]. split; [reflexivity | ].
    intros [Hin | [Hin | [Hin | []]]]; discriminate.
Qed.

Lemma no_login_without_push_witness :
  count_exec login_command (snd (run ["--tag-type"; "release"] env_ok)) = 0
  /\ ~ In (SecretRead secret_key) (snd (run ["--tag-type"; "release"] env_ok)).
Proof.
  exact (no_login_without_push ["--tag-type"; "release"]
           (mkNamespace (VStr "release") false (VList ["ubuntu"; "alpine"]))
           env_ok eq_refl eq_refl).
Defined.

(** C4: when push is parsed as true, the build command is never executed
    without a login attempt strictly before it; and the login is attempted
    (once) as soon as the run gets past the copy. *)
Theorem login_before_build argv ns env :
  parse_args argv = Argparse.Parsed ns ->
  push ns = true ->
  precedes (is_exec login_command) (is_exec command) (snd (run argv env))
  /\ (copy_status env = 0%Z ->
      count_exec login_command (snd (run argv env)) = 1).
Proof.
  intros H Hp. by_shape H env.
  - split; [now apply precedesb_precedes | contradiction].
  - split; [now apply precedesb_precedes | reflexivity].
  - rewrite Hp. cbn [staged app].
    split; [now apply precedesb_precedes | reflexivity].
Qed.

Lemma login_before_build_witness :
  precedes (is_exec login_command) (is_exec command) (snd (run ["--push"] env_ok))
  /\ count_exec login_command (snd (run ["--push"] env_ok)) = 1.
Proof.
  destruct (login_before_build ["--push"]
              (mkNamespace (VStr "head") true (VList ["ubuntu"; "alpine"]))
              env_ok eq_refl eq_refl) as [Hord Hlog].
  split; [exact Hord | exact (Hlog eq_refl)].
Defined.

(* ------------------------------------------------------------------ *)
(** ** Staging the artifact *)

(** C5: in every accepted run the copy command is run exactly once, it is
    the first thing the run does, it copies /tmp/praktika/input/clickhouse
    into ./ci/docker/clickhouse-server/, and the build command is never
    executed without the copy before it. *)
Theorem copy_once_before_build argv ns env :
  parse_args argv = Argparse.Parsed ns ->
  copy_command = "cp /tmp/praktika/input/clickhouse ./ci/docker/clickhouse-server/"
  /\ count_exec copy_command (snd (run argv env)) = 1
  /\ (exists rest, snd (run argv env) = Exec copy_command None :: rest)
  /\ precedes (is_exec copy_command) (is_exec command) (snd (run argv env)).
Proof.
  intros H. split; [reflexivity | ]. by_shape H env.
  - repeat split; [eexists; reflexivity | now apply precedesb_precedes].
  - repeat split; [eexists; reflexivity | now apply precedesb_precedes].
  - unfold staged. destruct (push ns); cbn [app];
      (repeat split; [eexists; reflexivity | now apply precedesb_precedes]).
Qed.

Lemma copy_once_before_build_witness :
  count_exec copy_command (snd (run ["--push"; "--tag-type=head"] env_ok)) = 1.
Proof.
  exact (proj1 (proj2 (copy_once_before_build ["--push"; "--tag-type=head"]
                         (mkNamespace (VStr "head") true (VList ["ubuntu"; "alpine"]))
                         env_ok eq_refl))).
Defined.

(* ------------------------------------------------------------------ *)
(** ** Strict and recorded failures *)

(** C6: a non-zero exit status of the copy command, or of the login
    command, aborts the run at once with that command's failure: the
    failing command was run a single time and nothing is executed after
    it. *)
Theorem strict_failure_aborts argv ns env :
  parse_args argv = Argparse.Parsed ns ->
  (copy_status env <> 0%Z ->
   run argv env = (CommandFailed copy_command (copy_status env),
                   [Exec copy_command None]))
  /\ (push ns = true -> copy_status env = 0%Z -> login_status env <> 0%Z ->
      run argv env = (CommandFailed login_command (login_status env),
                      [Exec copy_command None; SecretRead secret_key;
                       Exec login_command (Some (credential env))])).
Proof.
  intros H. split.
  - intros Hc. now apply run_copy_failed with ns.
  - intros Hp Hc Hl. now apply run_login_failed with ns.
Qed.

Lemma strict_failure_aborts_witness :
  run [] (env_failing copy_command)
  = (CommandFailed copy_command 1, [Exec copy_command None])
  /\ run ["--push"] (env_failing login_command)
     = (CommandFailed login_command 1,
        [Exec copy_command None; SecretRead secret_key;
         Exec login_command (Some "s3cret")]).
Proof.
  split.
  - apply (proj1 (strict_failure_aborts [] parser_defaults
                    (env_failing copy_command) eq_refl)).
    vm_compute. discriminate.
  - apply (proj2 (strict_failure_aborts ["--push"]
                    (mkNamespace (VStr "head") true (VList ["ubuntu"; "alpine"]))
                    (env_failing login_command) eq_refl)).
    + reflexivity.
    + reflexivity.
    + vm_compute. discriminate.
Defined.

(** C7: when the strict commands succeeded and the build command exits
    with a non-zero status, nothing is raised at that point: the failure
    is recorded in the result entry together with the output of the build,
    the run goes on to the reporter, and the exit status of the job is the
    one the reporter derives from the recorded entries. *)
Theorem build_failure_recorded argv ns env :
  parse_args argv = Argparse.Parsed ns ->
  strict_ok (push ns) env ->
  build_status (push ns) env <> 0%Z ->
  exists entry job,
    run argv env =
      (SysExit (if forallb Result.is_ok (results job) then 0 else 1)%Z,
       (staged (push ns) env ++ [Exec command None; Report job])%list)
    /\ results job = [entry]
    /\ name entry = "clickhouse/clickhouse-server:tmp"
    /\ status entry = FAIL
    /\ log entry = Some (build_output (push ns) env)
    /\ job_status job = FAIL.
Proof.
  intros H Hok Hb.
  rewrite (run_built _ _ _ H Hok).
  exists (mkResultEntry (image_repo ++ ":tmp") FAIL
            (clock env (staged (push ns) env ++ [Exec command None])%list
             - clock env (staged (push ns) env))
            (Some (build_output (push ns) env))),
         (built_job (push ns) env).
  unfold built_job.
  destruct (Z.eqb_spec (build_status (push ns) env) 0) as [E | _];
    [contradiction | ].
  repeat split; reflexivity.
Qed.

Lemma build_failure_recorded_witness :
  exists entry job,
    run ["--push"] (env_failing command) =
      (SysExit 1,
       [Exec copy_command None; SecretRead secret_key;
        Exec login_command (Some "s3cret"); Exec command None; Report job])
    /\ results job = [entry]
    /\ status entry = FAIL
    /\ log entry = Some "error".
Proof.
  destruct (build_failure_recorded ["--push"]
              (mkNamespace (VStr "head") true (VList ["ubuntu"; "alpine"]))
              (env_failing command) eq_refl)
    as (entry & job & Hrun & Hres & _ & Hst & Hlog & _).
  - split; [reflexivity | intros _; reflexivity].
  - vm_compute. discriminate.
  - exists entry, job. rewrite Hres in Hrun. cbn [forallb] in Hrun.
    unfold Result.is_ok in Hrun. rewrite Hst in Hrun.
    repeat split; assumption.
Defined.

(* ------------------------------------------------------------------ *)
(** ** The result entry *)

(** C8, as amended: in every accepted run in which the copy and (when
    pushing) the login succeed, the finalizer is called once, at the end,
    with exactly one result entry, named
    clickhouse/clickhouse-server:tmp; an accepted run in which one of them
    fails hands nothing to the finalizer. *)
Theorem one_result_entry argv ns env :
  parse_args argv = Argparse.Parsed ns ->
  (strict_ok (push ns) env ->
   exists entry,
     reported (snd (run argv env)) = [entry]
     /\ name entry = "clickhouse/clickhouse-server:tmp"
     /\ length (filter is_report (snd (run argv env))) = 1
     /\ exists job, last (snd (run argv env)) (Exec "" None) = Report job)
  /\ (~ strict_ok (push ns) env -> reported (snd (run argv env)) = []).
Proof.
  intros H. split.
  - intros Hok. rewrite (run_built _ _ _ H Hok). cbn [snd].
    unfold staged, built_job.
    destruct (push ns); cbn [app reported flat_map results]; eexists;
      (split; [reflexivity | split; [reflexivity | split; [reflexivity | ]]]);
      eexists; reflexivity.
  - intros Hnok. by_shape H env; try reflexivity. contradiction.
Qed.

Lemma one_result_entry_witness :
  exists entry,
    reported (snd (run [] env_ok)) = [entry]
    /\ name entry = "clickhouse/clickhouse-server:tmp".
Proof.
  destruct (proj1 (one_result_entry [] parser_defaults env_ok eq_refl))
    as (entry & Hrep & Hname & _).
  - split; [reflexivity | discriminate].
  - exists entry. split; assumption.
Defined.

(** C8, as stated, fails: the invocation without flags is accepted, and
    when its copy command fails no result entry is produced or handed to
    the finalizer. *)
Lemma no_result_entry_when_copy_fails :
  parse_args [] = Argparse.Parsed parser_defaults
  /\ run [] (env_failing copy_command)
     = (CommandFailed copy_command 1, [Exec copy_command None])
  /\ ~ (exists entry,
          reported (snd (run [] (env_failing copy_command))) = [entry]).
Proof.
  split; [reflexivity | split; [reflexivity | ]].
  intros [entry H]. vm_compute in H. discriminate.
Qed.

(* ------------------------------------------------------------------ *)
(** ** The registry login *)

(** without a forced re-login the status probe is consulted first, and the
    login is skipped when the probe succeeds *)
Lemma docker_login_probes env tr :
  exists rest,
    snd (docker_login (Some false) env tr)
    = (tr ++ Exec probe_command None :: rest)%list
    /\ (fst (shell env tr probe_command None) = 0%Z -> rest = []).
Proof.
  unfold docker_login, bind, ret, Shell.check, Secret.get_value.
  destruct (shell env tr probe_command None) as [c o]; cbn [fst].
  destruct (Z.eqb_spec c 0) as [-> | Hc]; cbn [negb].
  - exists []. split; [reflexivity | reflexivity].
  - destruct (shell env _ login_command _) as [c' o'].
    eexists. split; [ | intros E; contradiction].
    destruct (Z.eqb c' 0); cbn [snd]; rewrite <- !app_assoc; reflexivity.
Qed.

(** C9: the login command line is one fixed string; the commands that
    [docker_login] issues are the same for every credential in the secret
    store; and in a whole run the credential is handed over as the
    standard input of the login command and of no other command, all other
    commands being run without standard input. *)
Theorem credential_only_on_stdin relogin argv env tr s :
  login_command = "docker login --username 'robotclickhouse' --password-stdin"
  /\ commands_of (snd (docker_login relogin (with_secret env s) tr))
     = commands_of (snd (docker_login relogin env tr))
  /\ (forall c stdin,
         In (Exec c stdin) (snd (run argv (with_secret env s))) ->
         (c = login_command /\ stdin = Some s)
         \/ (stdin = None /\ (c = copy_command \/ c = command))).
Proof.
  split; [reflexivity | split].
  - destruct env as [sh sec clk].
    unfold docker_login, bind, ret, Shell.check, Secret.get_value, with_secret.
    destruct relogin as [[|] |]; cbn [negb shell secret_store];
      repeat match goal with
        | |- context [sh ?t ?c ?i] => destruct (sh t c i) as [? ?]
        | |- context [Z.eqb ?z 0] => destruct (Z.eqb z 0)
        | _ => progress cbn [negb shell secret_store]
        end;
      cbn [snd]; unfold commands_of; rewrite ?flat_map_app; reflexivity.
  - intros c stdin Hin.
    destruct (parse_args argv) as [ns | n] eqn:H.
    + revert Hin. by_shape H (with_secret env s);
        unfold staged, credential; try destruct (push ns);
        cbn [app In with_secret secret_store]; intros Hin;
        repeat match goal with
          | Hin : _ \/ _ |- _ => destruct Hin as [Hin | Hin]
          | Hin : False |- _ => contradiction
          | Hin : _ = Exec _ _ |- _ =>
              first [ discriminate Hin | injection Hin as <- <- ]
          end; auto.
    + rewrite (run_rejected _ _ _ H) in Hin. contradiction.
Qed.

Lemma credential_only_on_stdin_witness :
  commands_of (snd (docker_login None (with_secret env_ok "hunter2") []))
  = commands_of (snd (docker_login None env_ok []))
  /\ In (Exec login_command (Some "hunter2"))
        (snd (run ["--push"] (with_secret env_ok "hunter2"))).
Proof.
  split.
  - exact (proj1 (proj2 (credential_only_on_stdin None [] env_ok [] "hunter2"))).
  - vm_compute. right. right. left. reflexivity.
Defined.

(** C10: [relogin] defaults to true and [main] calls [docker_login]
    without argument, so on a push-enabled run the call logs in at once:
    the status probe is run at no point of the run, and the login is
    attempted whenever the run gets as far as the call. *)
Theorem login_unconditional argv ns env :
  parse_args argv = Argparse.Parsed ns ->
  push ns = true ->
  (forall env' tr, docker_login None env' tr = docker_login (Some true) env' tr)
  /\ (forall env' tr,
         snd (docker_login None env' tr)
         = (tr ++ [SecretRead secret_key;
                   Exec login_command (Some (credential env'))])%list)
  /\ count_exec probe_command (snd (run argv env)) = 0
  /\ (copy_status env = 0%Z ->
      count_exec login_command (snd (run argv env)) = 1).
Proof.
  intros H Hp. split; [reflexivity | split].
  - intros env' tr.
    unfold docker_login, bind, ret, Shell.check, Secret.get_value, credential.
    destruct (shell env' _ login_command _) as [c o].
    destruct (Z.eqb c 0); cbn [snd]; rewrite <- app_assoc; reflexivity.
  - by_shape H env.
    + split; [reflexivity | contradiction].
    + split; reflexivity.
    + rewrite Hp. cbn [staged app]. split; reflexivity.
Qed.

Lemma login_unconditional_witness :
  count_exec probe_command (snd (run ["--push"] env_ok)) = 0
  /\ count_exec login_command (snd (run ["--push"] env_ok)) = 1.
Proof.
  destruct (login_unconditional ["--push"]
              (mkNamespace (VStr "head") true (VList ["ubuntu"; "alpine"]))
              env_ok eq_refl eq_refl) as (_ & _ & Hprobe & Hlogin).
  split; [exact Hprobe | exact (Hlogin eq_refl)].
Defined.

(* ------------------------------------------------------------------ *)
(** ** The argument parser *)

Section ParserFacts.

Variable NS : Type.
Variable table : list (string * Argparse.Action NS).

Lemma lookup_in_In l s a :
  Argparse.lookup_in NS l s = Some a -> In (s, a) l.
Proof.
  induction l as [| [o b] l IH]; cbn [Argparse.lookup_in]; [discriminate | ].
  destruct (String.eqb_spec o s) as [-> | _].
  - intros [= ->]. now left.
  - intros H. right. now apply IH.
Qed.

Lemma get_option_tuples_in_table s a o e :
  In (Argparse.Tuple (Some a) o e) (Argparse.get_option_tuples NS table s) ->
  In (o, a) table.
Proof.
  unfold Argparse.get_option_tuples.
  assert (Hflat : forall f : string * Argparse.Action NS -> list (Argparse.OptionTuple NS),
             (forall oa t, In t (f oa) ->
                           exists e', t = Argparse.Tuple (Some (snd oa)) (fst oa) e') ->
             In (Argparse.Tuple (Some a) o e) (flat_map f table) ->
             In (o, a) table).
  { intros f Hf Hin. apply in_flat_map in Hin as [[o' a'] [Hoa Ht]].
    destruct (Hf _ _ Ht) as [e' [= -> -> _]]. exact Hoa. }
  destruct (PyStr.dash_at 0 s && PyStr.dash_at 1 s).
  - destruct (PyStr.split_eq s) as [[p e'] |]; apply Hflat; intros oa t;
      (destruct (PyStr.startswith _ _); [intros [<- | []]; eauto | intros []]).
  - apply Hflat. intros oa t.
    destruct (String.eqb _ _); [intros [<- | []]; eauto | ].
    destruct (PyStr.startswith _ _); [intros [<- | []]; eauto | intros []].
Qed.

Lemma parse_optional_in_table s a o e :
  Argparse.parse_optional NS table s
  = Argparse.Optional (Argparse.Tuple (Some a) o e) ->
  In (o, a) table.
Proof.
  unfold Argparse.parse_optional.
  destruct s as [| c0 tl]; [discriminate | ].
  destruct (negb _); [discriminate | ].
  destruct (Argparse.lookup NS table (String c0 tl)) as [b |] eqn:Hl.
  { intros [= -> <- _]. now apply lookup_in_In. }
  destruct tl as [| c1 tl]; [discriminate | ].
  destruct (PyStr.split_eq _) as [[o' e'] |].
  - destruct (Argparse.lookup NS table o') as [b |] eqn:Hl'.
    + intros [= -> -> _]. now apply lookup_in_In.
    + destruct (Argparse.get_option_tuples _ _ _) as [| t [| t' l]] eqn:Hg.
      * destruct (Argparse.negative_number _); [discriminate | ].
        destruct (PyStr.contains_char _ _); discriminate.
      * intros [= ->]. apply get_option_tuples_in_table with (s := String c0 (String c1 tl)) (e := e).
        rewrite Hg. now left.
      * discriminate.
  - destruct (Argparse.get_option_tuples _ _ _) as [| t [| t' l]] eqn:Hg.
    + destruct (Argparse.negative_number _); [discriminate | ].
      destruct (PyStr.contains_char _ _); discriminate.
    + intros [= ->]. apply get_option_tuples_in_table with (s := String c0 (String c1 tl)) (e := e).
      rewrite Hg. now left.
    + discriminate.
Qed.

End ParserFacts.

Abbreviation consume_job := (Argparse.consume Namespace parser_options).

(** strings met after something was left over stay left over *)
Lemma consume_arguments (l : list string) ns extras :
  consume_job (map (fun x => (x, Argparse.PatA)) l) 0 ns extras
  = inr (ns, (extras ++ l)%list).
Proof.
  revert extras. induction l as [| s l IH]; intros extras; cbn [map Argparse.consume].
  - now rewrite app_nil_r.
  - rewrite IH, <- app_assoc. reflexivity.
Qed.

(** the value made of a single argument string *)
Lemma get_values_one choices v :
  Argparse.get_values choices [v]
  = if String.eqb v "--" then Some (VList [])
    else if Argparse.check_value choices v then Some (VStr v) else None.
Proof.
  unfold Argparse.get_values. cbn [Argparse.remove_first].
  destruct (String.eqb v "--"); reflexivity.
Qed.

Ltac argp :=
  cbn [Argparse.consume_optional Argparse.consume_explicit Argparse.nargs
       Argparse.consume_following Argparse.match_argument
       Argparse.take_actions Argparse.take_action Argparse.check_value
       firstn map fst snd skip_ok].

(** a cluster of single-dash flags that starts with [-h] asks for the help
    first *)
Lemma consume_explicit_help ex (following : list Item) :
  match Argparse.consume_explicit Namespace parser_options ex
          Argparse.HelpAction "-h" following with
  | None => True
  | Some (tuples, _) => exists rest, tuples = (Argparse.HelpAction, []) :: rest
  end.
Proof.
  destruct ex as [| e0 e']; argp; [exact I | ].
  change (PyStr.dash_at 1 "-h") with false. cbv iota.
  destruct (Argparse.lookup _ _ _) as [a' |]; [ | exact I].
  destruct e' as [| e1 e''].
  - destruct (Argparse.consume_following _ _ _) as [[tuples n] |]; eauto.
  - destruct (Argparse.consume_explicit _ _ _ _ _ _) as [[tuples n] |]; eauto.
Qed.

(** what consuming one option of the job's parser can lead to *)
Lemma consume_option_cases a o e (following : list Item) ns :
  In (o, a) parser_options ->
  match Argparse.consume_optional Namespace parser_options
          (Argparse.Tuple (Some a) o e) following with
  | None => True
  | Some (tuples, n) =>
      match Argparse.take_actions Namespace ns tuples with
      | inl st => st = 2%Z \/ (st = 0%Z /\ a = Argparse.HelpAction)
      | inr _ => skip_ok n following
      end
  end.
Proof.
  intros Hin. cbn [parser_options In] in Hin.
  destruct Hin as [E | [E | [E | [E | [E | []]]]]]; injection E as <- <-.
  - (* -h *)
    destruct e as [ex |]; argp; [ | auto].
    pose proof (consume_explicit_help ex following) as H.
    destruct (Argparse.consume_explicit _ _ _ _ _ _) as [[tuples n] |]; [ | exact I].
    destruct H as [rest ->]. argp. auto.
  - (* --help *)
    destruct e as [[| e0 e'] |]; argp; auto.
    change (PyStr.dash_at 1 "--help") with true. exact I.
  - (* --tag-type *)
    destruct e as [[| e0 e'] |]; argp.
    + destruct (Argparse.get_values _ _); auto.
    + destruct (Argparse.get_values _ _); auto.
    + destruct following as [| [v [| | t]] r]; argp; auto.
      destruct (Argparse.get_values _ _); auto.
  - (* --push *)
    destruct e as [[| e0 e'] |]; argp; auto.
    change (PyStr.dash_at 1 "--push") with true. exact I.
  - (* --os *)
    destruct e as [[| e0 e'] |]; argp.
    + destruct (Argparse.get_values _ _); auto.
    + destruct (Argparse.get_values _ _); auto.
    + destruct following as [| [v [| | t]] r]; argp; auto.
      destruct (Argparse.get_values _ _); auto.
Qed.

(** Once the rest of the command line is doomed, so is the whole of it:
    the parser ends in a usage error, or with left-over strings, unless an
    earlier string asked for the help. *)
Lemma consume_doomed (l1 tail : list Item) :
  Forall item_ok l1 -> doomed tail ->
  forall skip ns extras,
    skip_ok skip (l1 ++ tail) ->
    match consume_job (l1 ++ tail)%list skip ns extras with
    | inl st => st = 2%Z \/ (st = 0%Z /\ existsb is_help_item l1 = true)
    | inr (_, ex) => ex <> []
    end.
Proof.
  intros Hok Hd. induction l1 as [| [s p] l1 IH]; intros skip ns extras Hs.
  - cbn [app] in *. destruct skip as [| [| k]]; [ | | contradiction].
    + destruct Hd as [_ Hd]. specialize (Hd ns extras).
      destruct (consume_job tail 0 ns extras) as [st | [ns' ex]]; auto.
    + destruct Hd as [Hh _].
      destruct tail as [| [v [| | t]] r]; cbn in Hs, Hh; contradiction.
  - inversion Hok as [| x l Hx Hl]; subst. specialize (IH Hl).
    cbn [app Argparse.consume]. destruct skip as [| [| k]].
    + assert (Hpass : forall ex',
                 match consume_job (l1 ++ tail)%list 0 ns ex' with
                 | inl st => st = 2%Z
                             \/ (st = 0%Z /\ existsb is_help_item ((s, p) :: l1) = true)
                 | inr (_, ex) => ex <> []
                 end).
      { intros ex'. specialize (IH 0 ns ex' I).
        destruct (consume_job (l1 ++ tail)%list 0 ns ex') as [st | [ns' ex]];
          [ | exact IH].
        destruct IH as [-> | [-> Hh]]; [now left | right].
        split; [reflexivity | ]. cbn [existsb]. rewrite Hh. apply orb_true_r. }
      destruct p as [| | [[a |] o e]]; try apply Hpass.
      pose proof (consume_option_cases a o e (l1 ++ tail)%list ns Hx) as Hc.
      destruct (Argparse.consume_optional _ _ _ _) as [[tuples n] |];
        [ | now left].
      destruct (Argparse.take_actions _ _ _) as [st | ns'].
      * destruct Hc as [-> | [-> ->]]; [now left | right]. split; reflexivity.
      * specialize (IH n ns' extras Hc).
        destruct (consume_job (l1 ++ tail)%list n ns' extras) as [st | [ns'' ex]];
          [ | exact IH].
        destruct IH as [-> | [-> Hh]]; [now left | right].
        split; [reflexivity | ]. cbn [existsb]. rewrite Hh. apply orb_true_r.
    + cbn [skip_ok app] in Hs. destruct p as [| | t]; try contradiction.
      specialize (IH 0 ns extras I).
      destruct (consume_job (l1 ++ tail)%list 0 ns extras) as [st | [ns' ex]];
        [ | exact IH].
      destruct IH as [-> | [-> Hh]]; [now left | right].
      split; [reflexivity | ]. cbn [existsb]. rewrite Hh. apply orb_true_r.
    + contradiction.
Qed.

Abbreviation classify_job := (Argparse.classify Namespace parser_options).
Abbreviation parse_optional_job :=
  (Argparse.parse_optional Namespace parser_options).

Lemma classify_app pre rest :
  (forall s, In s pre -> s <> "--") ->
  classify_job (pre ++ rest)%list = None
  \/ classify_job (pre ++ rest)%list
     = option_map (app (items_of pre)) (classify_job rest).
Proof.
  intros Hnd. induction pre as [| s pre IH]; cbn [app].
  - right. now destruct (classify_job rest).
  - cbn [Argparse.classify items_of map].
    destruct (String.eqb_spec s "--") as [E | _].
    { exfalso. apply (Hnd s); [now left | exact E]. }
    assert (Hpre : forall s', In s' pre -> s' <> "--")
      by (intros s' Hs'; apply Hnd; now right).
    unfold pattern_of.
    destruct (parse_optional_job s) as [| t |]; [ | | now left];
      (destruct (IH Hpre) as [-> | ->]; [now left | right];
       now destruct (classify_job rest)).
Qed.

Lemma split_at_dash (pre : list string) :
  (forall s, In s pre -> s <> "--")
  \/ exists p1 p2, pre = (p1 ++ "--" :: p2)%list
                   /\ forall s, In s p1 -> s <> "--".
Proof.
  induction pre as [| x pre IH].
  - left. intros s [].
  - destruct (String.eqb_spec x "--") as [-> | Hx].
    + right. exists [], pre. split; [reflexivity | intros s []].
    + destruct IH as [Hnd | (p1 & p2 & -> & Hnd)].
      * left. intros s [<- | Hs]; [exact Hx | now apply Hnd].
      * right. exists (x :: p1), p2. split; [reflexivity | ].
        intros s [<- | Hs]; [exact Hx | now apply Hnd].
Qed.

Lemma items_of_ok pre : Forall item_ok (items_of pre).
Proof.
  induction pre as [| s pre IH]; constructor; [ | exact IH].
  unfold item_ok, pattern_of. cbn [snd].
  destruct (parse_optional_job s) as [| [[a |] o e] |] eqn:E; try exact I.
  exact (parse_optional_in_table _ _ _ _ _ _ E).
Qed.

Lemma items_of_help pre :
  existsb is_help_item (items_of pre) = existsb selects_help pre.
Proof.
  induction pre as [| s pre IH]; [reflexivity | ].
  cbn [items_of map existsb]. fold (items_of pre). rewrite IH. f_equal.
  unfold is_help_item, pattern_of, selects_help. cbn [snd].
  now destruct (parse_optional_job s) as [| [[[] |] o e] |].
Qed.

Lemma classify_cons v after r :
  classify_job (v :: after) = Some r ->
  exists p r', r = (v, p) :: r' /\ (p = Argparse.PatA -> v <> "--").
Proof.
  cbn [Argparse.classify]. destruct (String.eqb_spec v "--") as [E | E].
  - intros [= <-]. eexists _, _. split; [reflexivity | discriminate].
  - destruct (parse_optional_job v); [ | | discriminate];
      (destruct (classify_job after); [intros [= <-] | discriminate];
       eexists _, _; split; [reflexivity | intros _; exact E]).
Qed.

Lemma parse_doomed argv (l1 tail : list Item) :
  classify_job argv = Some (l1 ++ tail)%list ->
  Forall item_ok l1 -> doomed tail ->
  exists st,
    parse_args argv = Argparse.Exit st
    /\ (st = 2%Z \/ (st = 0%Z /\ existsb is_help_item l1 = true)).
Proof.
  intros Hc Hok Hd. unfold parse_args, Argparse.parse_args. rewrite Hc.
  pose proof (consume_doomed l1 tail Hok Hd 0 parser_defaults [] I) as H.
  destruct (consume_job (l1 ++ tail)%list 0 parser_defaults [])
    as [st | [ns [| x ex]]].
  - exists st. split; [reflexivity | exact H].
  - contradiction.
  - exists 2%Z. split; [reflexivity | now left].
Qed.

(** the only action registered for [--tag-type] *)
Lemma tag_type_action a :
  In ("--tag-type", a) parser_options ->
  a = Argparse.StoreAction (Some tag_type_choices) set_tag_type.
Proof.
  cbn [parser_options In].
  intros [E | [E | [E | [E | [E | []]]]]]; try discriminate E.
  now injection E.
Qed.

(** a command line that gives [--tag-type] a value outside its choices
    is never parsed *)
Lemma invalid_tag_type_parse v before attached argv :
  tag_type_given v before attached argv ->
  PyStr.mem v tag_type_choices = false ->
  (attached = true -> v <> "--") ->
  exists st,
    parse_args argv = Argparse.Exit st
    /\ (st = 2%Z \/ (st = 0%Z /\ existsb selects_help before = true)).
Proof.
  intros Hg Hv Hdash.
  assert (Hrest : forall t tuple rest,
             parse_optional_job t = Argparse.Optional tuple ->
             (forall r, doomed ((t, Argparse.PatO tuple) :: r)) \/
             (exists after, rest = v :: after /\
                forall p r, (p = Argparse.PatA -> v <> "--") ->
                            doomed ((t, Argparse.PatO tuple) :: (v, p) :: r)) ->
             argv = (before ++ t :: rest)%list ->
             exists st,
               parse_args argv = Argparse.Exit st
               /\ (st = 2%Z \/ (st = 0%Z /\ existsb selects_help before = true))).
  { intros t tuple rest Ht Hdoom ->.
    destruct (split_at_dash before) as [Hnd | (p1 & p2 & -> & Hnd)].
    - destruct (classify_app before (t :: rest) Hnd) as [Hc | Hc].
      + exists 2%Z. unfold parse_args, Argparse.parse_args. rewrite Hc. auto.
      + assert (Ht' : String.eqb t "--" = false).
        { destruct (String.eqb_spec t "--") as [-> | ]; [ | reflexivity].
          discriminate Ht. }
        cbn [Argparse.classify] in Hc. rewrite Ht', Ht in Hc.
        destruct (classify_job rest) as [r |] eqn:Hr; cbn [option_map] in Hc.
        * assert (Hd : doomed ((t, Argparse.PatO tuple) :: r)).
          { destruct Hdoom as [Hd | (after & -> & Hd)]; [apply Hd | ].
            destruct (classify_cons _ _ _ Hr) as (p & r' & -> & Hp).
            now apply Hd. }
          destruct (parse_doomed _ _ _ Hc (items_of_ok before) Hd)
            as (st & Hp & Hst).
          exists st. split; [exact Hp | ]. now rewrite <- items_of_help.
        * exists 2%Z. unfold parse_args, Argparse.parse_args. rewrite Hc. auto.
    - rewrite <- app_assoc. cbn [app].
      destruct (classify_app p1 ("--" :: p2 ++ t :: rest)%list Hnd) as [Hc | Hc].
      + exists 2%Z. unfold parse_args, Argparse.parse_args. rewrite Hc. auto.
      + cbn [Argparse.classify String.eqb] in Hc.
        change (String.eqb "--" "--") with true in Hc.
        cbn [option_map] in Hc.
        assert (Hd : doomed (("--", Argparse.PatDash)
                               :: map (fun x => (x, Argparse.PatA))
                                      (p2 ++ t :: rest)%list)).
        { split; [exact I | ]. intros ns extras. cbn [Argparse.consume].
          rewrite consume_arguments. now destruct extras. }
        destruct (parse_doomed _ _ _ Hc (items_of_ok p1) Hd) as (st & Hp & Hst).
        exists st. split; [exact Hp | ].
        destruct Hst as [-> | [-> Hh]]; [now left | right].
        split; [reflexivity | ].
        rewrite items_of_help in Hh. rewrite existsb_app, Hh. reflexivity. }
  destruct Hg as [t a after Ht | t a after Ht].
  - apply (Hrest t _ (v :: after) Ht); [ | reflexivity].
    right. exists after. split; [reflexivity | ]. intros p r Hp.
    pose proof (tag_type_action a (parse_optional_in_table _ _ _ _ _ _ Ht)) as ->.
    split; [exact I | ]. intros ns extras.
    cbn [Argparse.consume]. argp.
    destruct p as [| | t']; argp; try reflexivity.
    rewrite get_values_one. cbn [Argparse.check_value].
    destruct (String.eqb_spec v "--") as [E | _]; [now elim Hp | ].
    now rewrite Hv.
  - apply (Hrest t _ after Ht); [ | reflexivity].
    left. intros r.
    pose proof (tag_type_action a (parse_optional_in_table _ _ _ _ _ _ Ht)) as ->.
    split; [exact I | ]. intros ns extras.
    cbn [Argparse.consume].
    assert (Hval : Argparse.get_values (Some tag_type_choices) [v] = None).
    { rewrite get_values_one. cbn [Argparse.check_value].
      destruct (String.eqb_spec v "--") as [E | _]; [now elim Hdash | ].
      now rewrite Hv. }
    destruct v as [| v0 v']; argp; now rewrite Hval.
Qed.

(** C2, as amended: when the command line gives [--tag-type] a value
    outside {head, release, release-latest}, other than the value ["--"]
    attached with an equals sign, the program exits during argument
    parsing and does nothing else (no copy, no login, no build).  The exit
    status is 2, except that it can be 0 when a help option ([-h],
    [--help] or an abbreviation of it) stands before the offending
    [--tag-type]: the parser then prints the help and exits before it
    looks at the value. *)
Theorem invalid_tag_type_rejected v before attached argv env :
  tag_type_given v before attached argv ->
  PyStr.mem v tag_type_choices = false ->
  (attached = true -> v <> "--") ->
  exists st,
    run argv env = (SysExit st, [])
    /\ (st = 2%Z \/ (st = 0%Z /\ existsb selects_help before = true)).
Proof.
  intros Hg Hv Hdash.
  destruct (invalid_tag_type_parse v before attached argv Hg Hv Hdash)
    as (st & Hp & Hst).
  exists st. split; [now apply run_rejected | exact Hst].
Qed.

Lemma invalid_tag_type_rejected_witness :
  run ["--push"; "--tag=nightly"] env_ok = (SysExit 2, [])
  /\ run ["--tag-type"; "--"; "--push"] env_ok = (SysExit 2, []).
Proof.
  split.
  - destruct (invalid_tag_type_rejected "nightly" ["--push"] true
                ["--push"; "--tag=nightly"] env_ok) as (st & Hrun & Hst).
    + exact (given_explicit "nightly" ["--push"] "--tag=nightly"
               (Argparse.StoreAction (Some tag_type_choices) set_tag_type)
               [] eq_refl).
    + reflexivity.
    + discriminate.
    + destruct Hst as [-> | [_ Hh]]; [exact Hrun | discriminate Hh].
  - destruct (invalid_tag_type_rejected "--" [] false
                ["--tag-type"; "--"; "--push"] env_ok) as (st & Hrun & Hst).
    + exact (given_next "--" [] "--tag-type"
               (Argparse.StoreAction (Some tag_type_choices) set_tag_type)
               ["--push"] eq_refl).
    + reflexivity.
    + discriminate.
    + destruct Hst as [-> | [_ Hh]]; [exact Hrun | discriminate Hh].
Defined.

(** C2, as stated, fails: [--help --tag-type bogus] gives [--tag-type] a
    value outside its choices, and the program exits with status 0. *)
Lemma invalid_tag_type_after_help :
  tag_type_given "bogus" ["--help"] false ["--help"; "--tag-type"; "bogus"]
  /\ PyStr.mem "bogus" tag_type_choices = false
  /\ run ["--help"; "--tag-type"; "bogus"] env_ok = (SysExit 0, []).
Proof.
  split; [ | split; reflexivity].
  exact (given_next "bogus" ["--help"] "--tag-type"
           (Argparse.StoreAction (Some tag_type_choices) set_tag_type)
           [] eq_refl).
Qed.

(** The value left out of C2: an attached ["--"] is dropped before the
    choices are looked at, the empty list is stored as the tag type, and
    the job runs. *)
Lemma attached_dashes_accepted :
  tag_type_given "--" [] true ["--tag-type=--"]
  /\ parse_args ["--tag-type=--"]
     = Argparse.Parsed (mkNamespace (VList []) false (VList ["ubuntu"; "alpine"]))
  /\ commands_of (snd (run ["--tag-type=--"] env_ok)) = [copy_command; command].
Proof.
  split; [ | split; reflexivity].
  exact (given_explicit "--" [] "--tag-type=--"
           (Argparse.StoreAction (Some tag_type_choices) set_tag_type)
           [] eq_refl).
Qed.

(* ------------------------------------------------------------------ *)
(** ** What an accepted command line determines *)

Lemma store_one choices v val :
  Argparse.get_values choices [v] = Some val ->
  (v = "--" /\ val = VList [])
  \/ (v <> "--" /\ val = VStr v /\ Argparse.check_value choices v = true).
Proof.
  rewrite get_values_one.
  destruct (String.eqb_spec v "--") as [E | E].
  - intros [= <-]. now left.
  - destruct (Argparse.check_value choices v); [ | discriminate].
    intros [= <-]. right. repeat split. exact E.
Qed.

(** the effect of one option that the parser got past *)
Lemma consume_option_step a o e (following : list Item) ns tuples n ns' :
  In (o, a) parser_options ->
  Forall arg_ok following ->
  Argparse.consume_optional Namespace parser_options
    (Argparse.Tuple (Some a) o e) following = Some (tuples, n) ->
  Argparse.take_actions Namespace ns tuples = inr ns' ->
  skip_ok n following
  /\ a <> Argparse.HelpAction
  /\ ((o = "--tag-type"
       /\ exists val, ns' = set_tag_type val ns
                      /\ (valid_tag val = true
                          \/ (val = VList [] /\ e = Some "--")))
      \/ (o = "--push" /\ ns' = set_push ns)
      \/ (o = "--os"
          /\ exists val, ns' = set_os val ns
                         /\ (is_str val = true
                             \/ (val = VList [] /\ e = Some "--")))).
Proof.
  intros Hin Hargs. cbn [parser_options In] in Hin.
  destruct Hin as [E | [E | [E | [E | [E | []]]]]]; injection E as <- <-.
  - (* -h *)
    destruct e as [ex |]; argp.
    + pose proof (consume_explicit_help ex following) as H.
      destruct (Argparse.consume_explicit _ _ _ _ _ _) as [[tuples' n'] |];
        [ | discriminate].
      destruct H as [rest ->]. intros [= <- <-]. argp. discriminate.
    + intros [= <- <-]. argp. discriminate.
  - (* --help *)
    destruct e as [[| e0 e'] |]; argp; try discriminate.
    intros [= <- <-]. argp. discriminate.
  - (* --tag-type *)
    assert (Hexplicit : forall ex,
               match
                 match Argparse.get_values (Some tag_type_choices) [ex] with
                 | Some value => inr (set_tag_type value ns)
                 | None => @inl Z Namespace 2%Z
                 end
               with
               | inl status => inl status
               | inr ns1 => inr ns1
               end = @inr Z Namespace ns' ->
               exists val, ns' = set_tag_type val ns
                           /\ (valid_tag val = true
                               \/ (val = VList [] /\ Some ex = Some "--"))).
    { intros ex.
      destruct (Argparse.get_values _ _) as [val |] eqn:Hg; [ | discriminate].
      intros [= <-]. exists val. split; [reflexivity | ].
      destruct (store_one _ _ _ Hg) as [[-> ->] | (_ & -> & Hc)]; auto. }
    destruct e as [[| e0 e'] |]; argp.
    + intros [= <- <-]. argp. intros H.
      split; [exact I | split; [discriminate | left]]. auto.
    + intros [= <- <-]. argp. intros H.
      split; [exact I | split; [discriminate | left]]. auto.
    + destruct following as [| [v [| | t]] r]; argp; try discriminate.
      intros [= <- <-]. argp. intros H.
      split; [exact I | split; [discriminate | left]].
      split; [reflexivity | ].
      destruct (Hexplicit v H) as (val & -> & [Hv | [_ [= ->]]]); eauto.
      inversion Hargs as [| x l Hx _]; subst. now elim (Hx eq_refl).
  - (* --push *)
    destruct e as [[| e0 e'] |]; argp; try discriminate.
    intros [= <- <-]. argp. intros [= <-].
    split; [exact I | split; [discriminate | auto]].
  - (* --os *)
    assert (Hexplicit : forall ex,
               match
                 match Argparse.get_values None [ex] with
                 | Some value => inr (set_os value ns)
                 | None => @inl Z Namespace 2%Z
                 end
               with
               | inl status => inl status
               | inr ns1 => inr ns1
               end = @inr Z Namespace ns' ->
               exists val, ns' = set_os val ns
                           /\ (is_str val = true
                               \/ (val = VList [] /\ Some ex = Some "--"))).
    { intros ex.
      destruct (Argparse.get_values _ _) as [val |] eqn:Hg; [ | discriminate].
      intros [= <-]. exists val. split; [reflexivity | ].
      destruct (store_one _ _ _ Hg) as [[-> ->] | (_ & -> & Hc)]; auto. }
    destruct e as [[| e0 e'] |]; argp.
    + intros [= <- <-]. argp. intros H.
      split; [exact I | split; [discriminate | right; right]]. auto.
    + intros [= <- <-]. argp. intros H.
      split; [exact I | split; [discriminate | right; right]]. auto.
    + destruct following as [| [v [| | t]] r]; argp; try discriminate.
      intros [= <- <-]. argp. intros H.
      split; [exact I | split; [discriminate | right; right]].
      split; [reflexivity | ].
      destruct (Hexplicit v H) as (val & -> & [Hv | [_ [= ->]]]); eauto.
      inversion Hargs as [| x l Hx _]; subst. now elim (Hx eq_refl).
Qed.

Lemma accounted_refl ns : accounted [] ns ns.
Proof.
  unfold accounted. cbn [existsb]. rewrite orb_false_r.
  repeat split; auto. discriminate.
Qed.

(** a string that is no option of the parser leaves the account as it is *)
Lemma accounted_pass (it : Item) items ns ns' :
  match snd it with
  | Argparse.PatO (Argparse.Tuple (Some _) _ _) => False
  | _ => True
  end ->
  accounted items ns ns' -> accounted (it :: items) ns ns'.
Proof.
  intros Hit (H1 & H2 & H3 & H4 & H5 & H6 & H7).
  assert (Hopt : forall name, is_opt_item name it = false).
  { intros name. unfold is_opt_item.
    now destruct (snd it) as [| | [[a |] o e]]. }
  assert (Hdash : forall name, is_dashes_item name it = false).
  { intros name. unfold is_dashes_item.
    now destruct (snd it) as [| | [[a |] o e]]. }
  assert (Hhelp : is_help_item it = false).
  { unfold is_help_item. now destruct (snd it) as [| | [[a |] o e]]. }
  unfold accounted. cbn [existsb]. rewrite !Hopt, !Hdash, Hhelp. cbn [orb].
  auto 10.
Qed.

(** the account of one option, put before the account of what follows *)
Lemma accounted_step s a o e items ns ns1 ns' :
  a <> Argparse.HelpAction ->
  (o = "--tag-type"
   /\ exists val, ns1 = set_tag_type val ns
                  /\ (valid_tag val = true \/ (val = VList [] /\ e = Some "--")))
  \/ (o = "--push" /\ ns1 = set_push ns)
  \/ (o = "--os"
      /\ exists val, ns1 = set_os val ns
                     /\ (is_str val = true \/ (val = VList [] /\ e = Some "--"))) ->
  accounted items ns1 ns' ->
  accounted ((s, Argparse.PatO (Argparse.Tuple (Some a) o e)) :: items) ns ns'.
Proof.
  intros Ha Hcase (H1 & H2 & H3 & H4 & H5 & H6 & H7).
  assert (Hhelp : is_help_item (s, Argparse.PatO (Argparse.Tuple (Some a) o e))
                  = false).
  { unfold is_help_item. cbn [snd]. destruct a; [contradiction | | ]; reflexivity. }
  unfold accounted. cbn [existsb]. rewrite Hhelp.
  unfold is_opt_item at 1 3 5 7, is_dashes_item at 1 3. cbn [snd orb].
  destruct Hcase as [(-> & val & -> & Hval) | [(-> & ->) | (-> & val & -> & Hval)]].
  - change (String.eqb "--tag-type" "--push") with false.
    change (String.eqb "--tag-type" "--tag-type") with true.
    change (String.eqb "--tag-type" "--os") with false.
    cbn [orb andb set_tag_type tag_type push os] in *.
    assert (Hdrop : match e with
                    | Some e0 => String.eqb e0 "--"
                    | None => false
                    end = false -> valid_tag val = true).
    { destruct Hval as [Hv | [-> ->]]; [auto | discriminate]. }
    split; [ | split; [ | split; [ | split; [ | split; [ | split]]]]].
    + intros _. apply H1. destruct Hval as [Hv | [-> _]]; auto.
    + intros Hd _. apply orb_false_iff in Hd as [Hd0 Hd]. auto.
    + exact H3.
    + discriminate.
    + exact H5.
    + destruct e; exact H6.
    + exact H7.
  - change (String.eqb "--push" "--push") with true.
    change (String.eqb "--push" "--tag-type") with false.
    change (String.eqb "--push" "--os") with false.
    cbn [orb andb set_push tag_type push os] in *.
    split; [ | split; [ | split; [ | split; [ | split; [ | split]]]]].
    + exact H1.
    + destruct e; exact H2.
    + rewrite H3. now rewrite orb_true_r.
    + exact H4.
    + exact H5.
    + destruct e; exact H6.
    + exact H7.
  - change (String.eqb "--os" "--push") with false.
    change (String.eqb "--os" "--tag-type") with false.
    change (String.eqb "--os" "--os") with true.
    cbn [orb andb set_os tag_type push os] in *.
    assert (Hdrop : match e with
                    | Some e0 => String.eqb e0 "--"
                    | None => false
                    end = false -> is_str val = true).
    { destruct Hval as [Hv | [-> ->]]; [auto | discriminate]. }
    split; [ | split; [ | split; [ | split; [ | split; [ | split]]]]].
    + exact H1.
    + destruct e; exact H2.
    + exact H3.
    + exact H4.
    + destruct (existsb (is_opt_item "--os") items); [exact H5 | ].
      rewrite H5. destruct Hval as [Hv | [-> _]]; auto.
    + intros Hd _. apply orb_false_iff in Hd as [Hd0 Hd].
      destruct (existsb (is_opt_item "--os") items) eqn:Hos.
      * now apply H6.
      * rewrite H5. auto.
    + exact H7.
Qed.

Lemma consume_accepted items :
  Forall item_ok items ->
  Forall arg_ok items ->
  forall skip ns extras ns' ex,
    skip_ok skip items ->
    consume_job items skip ns extras = inr (ns', ex) ->
    accounted items ns ns'.
Proof.
  induction 1 as [| [s p] items Hit Hok IH];
    intros Hargs skip ns extras ns' ex Hs Hc.
  - replace ns' with ns; [apply accounted_refl | ].
    destruct skip; cbn in Hc; congruence.
  - inversion Hargs as [| x l _ Hargs']; subst. specialize (IH Hargs').
    cbn [Argparse.consume] in Hc. destruct skip as [| [| k]].
    + destruct p as [| | [[a |] o e]];
        try (apply accounted_pass; [exact I | exact (IH 0 _ _ _ _ I Hc)]).
      unfold item_ok in Hit. cbn [snd] in Hit.
      destruct (Argparse.consume_optional _ _ _ _) as [[tuples n] |] eqn:Hco;
        [ | discriminate].
      destruct (Argparse.take_actions _ _ _) as [st | ns1] eqn:Hta;
        [discriminate | ].
      destruct (consume_option_step _ _ _ _ _ _ _ _ Hit Hargs' Hco Hta)
        as (Hn & Ha & Hcase).
      exact (accounted_step _ _ _ _ _ _ _ _ Ha Hcase (IH _ _ _ _ _ Hn Hc)).
    + cbn [skip_ok] in Hs. destruct p as [| | t]; try contradiction.
      apply accounted_pass; [exact I | exact (IH 0 _ _ _ _ I Hc)].
    + contradiction.
Qed.

Lemma doomed_dash (l : list string) :
  doomed (("--", Argparse.PatDash) :: map (fun x => (x, Argparse.PatA)) l).
Proof.
  split; [exact I | ]. intros ns extras. cbn [Argparse.consume].
  rewrite consume_arguments. now destruct extras.
Qed.

(** an accepted command line holds no ["--"] and no ambiguous
    abbreviation, and the loop over its strings leaves nothing over *)
Lemma accepted_items argv ns :
  parse_args argv = Argparse.Parsed ns ->
  classify_job argv = Some (items_of argv)
  /\ consume_job (items_of argv) 0 parser_defaults [] = inr (ns, [])
  /\ (forall s, In s argv -> s <> "--").
Proof.
  intros H.
  assert (Hc : classify_job argv = Some (items_of argv)
               /\ (forall s, In s argv -> s <> "--")).
  { destruct (split_at_dash argv) as [Hnd | (p1 & p2 & -> & Hnd)].
    - split; [ | exact Hnd].
      destruct (classify_app argv [] Hnd) as [Hc | Hc];
        rewrite app_nil_r in Hc.
      + unfold parse_args, Argparse.parse_args in H. now rewrite Hc in H.
      + rewrite Hc. cbn. now rewrite app_nil_r.
    - exfalso.
      destruct (classify_app p1 ("--" :: p2) Hnd) as [Hc | Hc].
      + unfold parse_args, Argparse.parse_args in H. now rewrite Hc in H.
      + cbn [Argparse.classify] in Hc.
        change (String.eqb "--" "--") with true in Hc. cbn [option_map] in Hc.
        destruct (parse_doomed _ _ _ Hc (items_of_ok p1) (doomed_dash p2))
          as (st & Hp & _).
        congruence. }
  destruct Hc as [Hc Hnd]. split; [exact Hc | split; [ | exact Hnd]].
  unfold parse_args, Argparse.parse_args in H. rewrite Hc in H.
  destruct (consume_job (items_of argv) 0 parser_defaults [])
    as [st | [ns' [| x ex]]]; congruence.
Qed.

Lemma items_of_selects name argv :
  existsb (is_opt_item name) (items_of argv) = existsb (selects name) argv.
Proof.
  induction argv as [| s argv IH]; [reflexivity | ].
  cbn [items_of map existsb]. fold (items_of argv). rewrite IH. f_equal.
  unfold is_opt_item, pattern_of, selects. cbn [snd].
  now destruct (parse_optional_job s) as [| [[a |] o e] |].
Qed.

Lemma items_of_dashes name argv :
  existsb (is_dashes_item name) (items_of argv)
  = existsb (attaches_dashes name) argv.
Proof.
  induction argv as [| s argv IH]; [reflexivity | ].
  cbn [items_of map existsb]. fold (items_of argv). rewrite IH. f_equal.
  unfold is_dashes_item, pattern_of, attaches_dashes. cbn [snd].
  now destruct (parse_optional_job s) as [| [[a |] o e] |].
Qed.

Lemma items_of_arg_ok argv :
  (forall s, In s argv -> s <> "--") -> Forall arg_ok (items_of argv).
Proof.
  intros Hnd. induction argv as [| s argv IH]; constructor.
  - intros _. apply Hnd. now left.
  - apply IH. intros s' Hs'. apply Hnd. now right.
Qed.

(** everything an accepted command line determines *)
Lemma accepted_accounted argv ns :
  parse_args argv = Argparse.Parsed ns ->
  accounted (items_of argv) parser_defaults ns.
Proof.
  intros H. destruct (accepted_items argv ns H) as (_ & Hc & Hnd).
  exact (consume_accepted _ (items_of_ok argv) (items_of_arg_ok argv Hnd)
           0 _ _ _ _ I Hc).
Qed.

Lemma valid_tag_spec v :
  valid_tag v = true ->
  exists s, v = VStr s /\ PyStr.mem s tag_type_choices = true.
Proof.
  destruct v as [s | l]; [ | discriminate]. intros H. now exists s.
Qed.

Lemma is_str_spec v : is_str v = true -> exists s, v = VStr s.
Proof.
  destruct v as [s | l]; [ | discriminate]. intros _. now exists s.
Qed.

(** X1: the tag type of an accepted invocation is one of head, release
    and release-latest, or else the empty list; and it is one of the three
    whenever no string of the command line attaches the value ["--"] to
    [--tag-type] with an equals sign. *)
Theorem accepted_tag_type_valid argv ns :
  parse_args argv = Argparse.Parsed ns ->
  ((exists s, tag_type ns = VStr s /\ PyStr.mem s tag_type_choices = true)
   \/ tag_type ns = VList [])
  /\ (existsb (attaches_dashes "--tag-type") argv = false ->
      exists s, tag_type ns = VStr s /\ PyStr.mem s tag_type_choices = true).
Proof.
  intros H. destruct (accepted_accounted argv ns H) as (H1 & H2 & _).
  rewrite items_of_dashes in H2. split.
  - destruct H1 as [Hv | Hl]; [now left | | now right].
    left. now apply valid_tag_spec.
  - intros Hd. apply valid_tag_spec. now apply H2.
Qed.

Lemma accepted_tag_type_valid_witness :
  exists s, tag_type (mkNamespace (VStr "release") true (VList [])) = VStr s
            /\ PyStr.mem s tag_type_choices = true.
Proof.
  exact (proj2 (accepted_tag_type_valid ["--os=--"; "--push"; "--tag"; "release"]
                  (mkNamespace (VStr "release") true (VList [])) eq_refl)
               eq_refl).
Defined.

(** X2: on an accepted invocation [args.push] is true exactly when some
    string of the command line is the option [--push] (spelled out or
    abbreviated). *)
Theorem accepted_push_iff_flag argv ns :
  parse_args argv = Argparse.Parsed ns ->
  push ns = existsb (selects "--push") argv.
Proof.
  intros H. destruct (accepted_accounted argv ns H) as (_ & _ & H3 & _).
  now rewrite H3, items_of_selects.
Qed.

Lemma accepted_push_iff_flag_witness :
  push (mkNamespace (VStr "head") true (VStr "--push")) = true
  /\ push (mkNamespace (VStr "head") false (VStr "--push")) = false.
Proof.
  split.
  - exact (accepted_push_iff_flag ["--os=--push"; "--pu"]
             (mkNamespace (VStr "head") true (VStr "--push")) eq_refl).
  - exact (accepted_push_iff_flag ["--os=--push"]
             (mkNamespace (VStr "head") false (VStr "--push")) eq_refl).
Defined.

(** X3: an accepted invocation keeps the default of every option the
    command line does not name: tag type head without [--tag-type], the
    list ubuntu, alpine without [--os].  Once [--os] is given, [args.os]
    is a single string or the empty list, and it is a string whenever no
    string of the command line attaches the value ["--"] to [--os] with an
    equals sign. *)
Theorem accepted_defaults argv ns :
  parse_args argv = Argparse.Parsed ns ->
  (existsb (selects "--tag-type") argv = false -> tag_type ns = VStr "head")
  /\ (existsb (selects "--os") argv = false ->
      os ns = VList ["ubuntu"; "alpine"])
  /\ (existsb (selects "--os") argv = true ->
      (exists v, os ns = VStr v) \/ os ns = VList [])
  /\ (existsb (selects "--os") argv = true ->
      existsb (attaches_dashes "--os") argv = false ->
      exists v, os ns = VStr v).
Proof.
  intros H.
  destruct (accepted_accounted argv ns H) as (_ & _ & _ & H4 & H5 & H6 & _).
  rewrite !items_of_selects, ?items_of_dashes in *.
  split; [exact H4 | ].
  destruct (existsb (selects "--os") argv).
  - split; [discriminate | split].
    + intros _. destruct H5 as [Hs | Hl]; [left | now right].
      now apply is_str_spec.
    + intros _ Hd. apply is_str_spec. now apply H6.
  - split; [intros _; exact H5 | split; discriminate].
Qed.

Lemma accepted_defaults_witness :
  tag_type (mkNamespace (VStr "head") true (VStr "alpine")) = VStr "head"
  /\ exists v, os (mkNamespace (VStr "head") true (VStr "alpine")) = VStr v.
Proof.
  destruct (accepted_defaults ["--push"; "--os"; "alpine"]
              (mkNamespace (VStr "head") true (VStr "alpine")) eq_refl)
    as (Ht & _ & _ & Ho).
  split; [exact (Ht eq_refl) | exact (Ho eq_refl eq_refl)].
Defined.

(* ------------------------------------------------------------------ *)
(** ** How the parser ends a run *)

Lemma consume_exit items :
  Forall item_ok items ->
  forall skip ns extras st,
    skip_ok skip items ->
    consume_job items skip ns extras = inl st ->
    st = 2%Z \/ (st = 0%Z /\ existsb is_help_item items = true).
Proof.
  induction 1 as [| [s p] items Hit Hok IH]; intros skip ns extras st Hs Hc.
  - destruct skip; discriminate Hc.
  - assert (Hlater : forall skip' ns1 ex1,
               skip_ok skip' items ->
               consume_job items skip' ns1 ex1 = inl st ->
               st = 2%Z
               \/ (st = 0%Z /\ existsb is_help_item ((s, p) :: items) = true)).
    { intros skip' ns1 ex1 Hs' Hc'.
      destruct (IH _ _ _ _ Hs' Hc') as [-> | [-> Hh]]; [now left | right].
      split; [reflexivity | ]. cbn [existsb]. rewrite Hh. apply orb_true_r. }
    cbn [Argparse.consume] in Hc. destruct skip as [| [| k]].
    + destruct p as [| | [[a |] o e]]; try exact (Hlater 0 _ _ I Hc).
      unfold item_ok in Hit. cbn [snd] in Hit.
      pose proof (consume_option_cases a o e items ns Hit) as Hcase.
      destruct (Argparse.consume_optional _ _ _ _) as [[tuples n] |];
        [ | injection Hc as <-; now left].
      destruct (Argparse.take_actions _ _ _) as [st' | ns1].
      * injection Hc as <-.
        destruct Hcase as [-> | [-> ->]]; [now left | right].
        split; reflexivity.
      * exact (Hlater n _ _ Hcase Hc).
    + cbn [skip_ok] in Hs. destruct p as [| | t]; try contradiction.
      exact (Hlater 0 _ _ I Hc).
    + contradiction.
Qed.

Lemma arguments_items (l : list string) :
  Forall item_ok (map (fun x => (x, Argparse.PatA)) l)
  /\ existsb is_help_item (map (fun x => (x, Argparse.PatA)) l) = false.
Proof.
  induction l as [| y l [IH1 IH2]]; cbn [map existsb].
  - split; [constructor | reflexivity].
  - split; [constructor; [exact I | exact IH1] | exact IH2].
Qed.

Lemma classify_items argv :
  forall items,
    classify_job argv = Some items ->
    Forall item_ok items
    /\ (existsb is_help_item items = true -> existsb selects_help argv = true).
Proof.
  induction argv as [| s argv IH]; intros items; cbn [Argparse.classify].
  - intros [= <-]. split; [constructor | discriminate].
  - destruct (String.eqb s "--").
    + intros [= <-]. destruct (arguments_items argv) as [Hok E]. split.
      * constructor; [exact I | exact Hok].
      * cbn [existsb is_help_item snd orb]. rewrite E. discriminate.
    + assert (Hh : is_help_item (s, pattern_of s) = selects_help s).
      { unfold is_help_item, pattern_of, selects_help. cbn [snd].
        now destruct (parse_optional_job s) as [| [[[] |] o e] |]. }
      pose proof (items_of_ok [s]) as Hs. inversion Hs as [| x l Hs1 _]; subst.
      unfold pattern_of in Hh, Hs1.
      destruct (parse_optional_job s) as [| t |]; [ | | discriminate];
        (destruct (classify_job argv) as [items' |]; [ | discriminate];
         intros [= <-]; destruct (IH items' eq_refl) as [Hok Hhelp];
         split; [constructor; assumption | ];
         cbn [existsb]; rewrite Hh;
         destruct (selects_help s); [reflexivity | exact Hhelp]).
Qed.

Lemma parse_exit_status argv st :
  parse_args argv = Argparse.Exit st ->
  st = 2%Z \/ (st = 0%Z /\ existsb selects_help argv = true).
Proof.
  unfold parse_args, Argparse.parse_args.
  destruct (classify_job argv) as [items |] eqn:Hc;
    [ | intros [= <-]; now left].
  destruct (classify_items argv items Hc) as [Hok Hhelp].
  destruct (consume_job items 0 parser_defaults []) as [st' | [ns [| x ex]]] eqn:Hco;
    [ | discriminate | intros [= <-]; now left].
  intros [= <-].
  destruct (consume_exit items Hok 0 _ _ _ I Hco) as [-> | [-> Hh]]; auto.
Qed.

(** X4: when no string of the command line is the option [--push], no
    login command is issued and the secret store is not queried, in any
    environment, whether the invocation is accepted or not. *)
Theorem no_push_flag_no_login argv env :
  existsb (selects "--push") argv = false ->
  count_exec login_command (snd (run argv env)) = 0
  /\ existsb is_secret_read (snd (run argv env)) = false.
Proof.
  intros Hf. destruct (parse_args argv) as [ns | st] eqn:H.
  - assert (Hp : push ns = false).
    { destruct (accepted_accounted argv ns H) as (_ & _ & H3 & _).
      now rewrite H3, items_of_selects. }
    by_shape H env.
    + split; reflexivity.
    + congruence.
    + rewrite Hp. split; reflexivity.
  - rewrite (run_rejected _ _ _ H). split; reflexivity.
Qed.

Lemma no_push_flag_no_login_witness :
  count_exec login_command (snd (run ["--os=--push"; "--tag-type"; "release"] env_ok)) = 0.
Proof.
  exact (proj1 (no_push_flag_no_login ["--os=--push"; "--tag-type"; "release"]
                  env_ok eq_refl)).
Defined.

(** X5: when the argument parser ends the run, nothing was executed and
    the exit status is the parser's: 2 for a usage error, and 0 only if
    some string of the command line asked for the help. *)
Theorem rejected_runs_nothing argv st env :
  parse_args argv = Argparse.Exit st ->
  run argv env = (SysExit st, [])
  /\ (st = 2%Z \/ (st = 0%Z /\ existsb selects_help argv = true)).
Proof.
  intros H. split; [now apply run_rejected | now apply parse_exit_status].
Qed.

Lemma rejected_runs_nothing_witness :
  run ["--push"; "clickhouse"] env_ok = (SysExit 2, []).
Proof.
  exact (proj1 (rejected_runs_nothing ["--push"; "clickhouse"] 2 env_ok eq_refl)).
Defined.

(** X6: a command line on which some string asks for the help is never
    accepted: the run executes nothing and exits with status 0 or 2,
    whatever else the command line holds. *)
Theorem help_runs_nothing argv env :
  existsb selects_help argv = true ->
  exists st, run argv env = (SysExit st, []) /\ (st = 0%Z \/ st = 2%Z).
Proof.
  intros Hh. destruct (parse_args argv) as [ns | st] eqn:H.
  - destruct (accepted_accounted argv ns H) as (_ & _ & _ & _ & _ & _ & H7).
    rewrite items_of_help in H7. congruence.
  - exists st. split; [now apply run_rejected | ].
    destruct (parse_exit_status argv st H) as [-> | [-> _]]; auto.
Qed.

Lemma help_runs_nothing_witness :
  exists st, run ["--push"; "--tag-type"; "release"; "--he"] env_ok
             = (SysExit st, []) /\ (st = 0%Z \/ st = 2%Z).
Proof.
  exact (help_runs_nothing ["--push"; "--tag-type"; "release"; "--he"]
           env_ok eq_refl).
Defined.

(* ------------------------------------------------------------------ *)
(** ** Options compose from left to right *)

Section AppendFacts.

Variable NS : Type.
Variable table : list (string * Argparse.Action NS).

Lemma consume_following_app a (l1 l2 : list (string * Argparse.Pattern NS)) r :
  Argparse.consume_following NS a l1 = Some r ->
  Argparse.consume_following NS a (l1 ++ l2)%list = Some r.
Proof.
  unfold Argparse.consume_following, Argparse.match_argument.
  destruct (Argparse.nargs NS a); [exact (fun H => H) | ].
  destruct l1 as [| [v [| | t]] l1]; try discriminate.
  exact (fun H => H).
Qed.

Lemma consume_explicit_app e :
  forall a o (l1 l2 : list (string * Argparse.Pattern NS)) r,
    Argparse.consume_explicit NS table e a o l1 = Some r ->
    Argparse.consume_explicit NS table e a o (l1 ++ l2)%list = Some r.
Proof.
  induction e as [| e0 e' IH]; intros a o l1 l2 r;
    cbn [Argparse.consume_explicit];
    destruct (Argparse.nargs NS a); try exact (fun H => H).
  destruct (PyStr.dash_at 1 o); [discriminate | ].
  destruct (Argparse.lookup NS table _) as [a' |]; [ | discriminate].
  destruct e' as [| e1 e''].
  - destruct (Argparse.consume_following NS a' l1) as [[tuples n] |] eqn:E;
      [ | discriminate].
    now rewrite (consume_following_app _ _ l2 _ E).
  - destruct (Argparse.consume_explicit NS table (String e1 e'') a' _ l1)
      as [[tuples n] |] eqn:E; [ | discriminate].
    now rewrite (IH _ _ _ l2 _ E).
Qed.

Lemma consume_optional_app t (l1 l2 : list (string * Argparse.Pattern NS)) r :
  Argparse.consume_optional NS table t l1 = Some r ->
  Argparse.consume_optional NS table t (l1 ++ l2)%list = Some r.
Proof.
  destruct t as [[a |] o [e |]]; cbn [Argparse.consume_optional].
  - apply consume_explicit_app.
  - apply consume_following_app.
  - exact (fun H => H).
  - exact (fun H => H).
Qed.

End AppendFacts.

(** the options met first are dealt with first, whatever follows them *)
Lemma consume_app (l1 l2 : list Item) :
  Forall item_ok l1 ->
  forall skip ns extras ns' ex,
    skip_ok skip l1 ->
    consume_job l1 skip ns extras = inr (ns', ex) ->
    consume_job (l1 ++ l2)%list skip ns extras = consume_job l2 0 ns' ex.
Proof.
  induction 1 as [| [s p] l1 Hit Hok IH]; intros skip ns extras ns' ex Hs Hc.
  - destruct skip as [| [| k]]; try contradiction.
    cbn in Hc. injection Hc as <- <-. reflexivity.
  - cbn [app Argparse.consume] in *. destruct skip as [| [| k]].
    + destruct p as [| | [[a |] o e]]; try exact (IH 0 _ _ _ _ I Hc).
      unfold item_ok in Hit. cbn [snd] in Hit.
      pose proof (consume_option_cases a o e l1 ns Hit) as Hcase.
      destruct (Argparse.consume_optional _ _ _ l1) as [[tuples n] |] eqn:Hco;
        [ | discriminate].
      pose proof (consume_optional_app _ _ _ _ l2 _ Hco) as Hco'.
      unfold Item in *. rewrite Hco'.
      destruct (Argparse.take_actions _ _ _) as [st | ns1]; [discriminate | ].
      exact (IH n _ _ _ _ Hcase Hc).
    + cbn [skip_ok] in Hs. destruct p as [| | t]; try contradiction.
      exact (IH 0 _ _ _ _ I Hc).
    + contradiction.
Qed.

Lemma classify_app_accepted argv ns rest :
  parse_args argv = Argparse.Parsed ns ->
  classify_job (argv ++ rest)%list
  = option_map (app (items_of argv)) (classify_job rest).
Proof.
  intros H. destruct (accepted_items argv ns H) as (Hc & _ & Hnd).
  clear H. revert Hc. induction argv as [| s argv IH]; intros Hc.
  - cbn. now destruct (classify_job rest).
  - cbn [app Argparse.classify items_of map] in *.
    destruct (String.eqb_spec s "--") as [E | _].
    { exfalso. apply (Hnd s); [now left | exact E]. }
    assert (Hnd' : forall s', In s' argv -> s' <> "--")
      by (intros s' Hs'; apply Hnd; now right).
    unfold pattern_of in *.
    destruct (parse_optional_job s) as [| t |]; [ | | discriminate];
      (destruct (classify_job argv) as [items |] eqn:Hca; [ | discriminate];
       injection Hc as Hc; rewrite (IH Hnd' (f_equal Some Hc));
       now destruct (classify_job rest)).
Qed.

(** parsing a longer command line is parsing its accepted front, then
    the rest from the namespace reached *)
Lemma parse_args_app argv ns rest items :
  parse_args argv = Argparse.Parsed ns ->
  classify_job rest = Some items ->
  parse_args (argv ++ rest)%list
  = match consume_job items 0 ns [] with
    | inl status => Argparse.Exit status
    | inr (ns', []) => Argparse.Parsed ns'
    | inr (_, _ :: _) => Argparse.Exit 2
    end.
Proof.
  intros H Hr. destruct (accepted_items argv ns H) as (_ & Hco & _).
  unfold parse_args at 1, Argparse.parse_args.
  rewrite (classify_app_accepted argv ns rest H), Hr. cbn [option_map].
  now rewrite (consume_app _ items (items_of_ok argv) 0 _ _ _ _ I Hco).
Qed.

(** X7: options are taken from left to right and the last one wins:
    after an accepted command line, a further [--tag-type v] with a valid
    [v] replaces the tag type and nothing else, a further [--push] sets
    the push flag and nothing else, and a further [--os v] (for a [v] that
    does not look like an option) replaces [args.os] by the string [v]. *)
Theorem later_option_overrides argv ns :
  parse_args argv = Argparse.Parsed ns ->
  (forall v, PyStr.mem v tag_type_choices = true ->
             parse_args (argv ++ ["--tag-type"; v])%list
             = Argparse.Parsed (set_tag_type (VStr v) ns))
  /\ parse_args (argv ++ ["--push"])%list = Argparse.Parsed (set_push ns)
  /\ (forall v, v <> "--" ->
                parse_optional_job v = Argparse.Positional ->
                parse_args (argv ++ ["--os"; v])%list
                = Argparse.Parsed (set_os (VStr v) ns)).
Proof.
  intros H. split; [ | split].
  - intros v Hv.
    assert (Hcases : v = "head" \/ v = "release" \/ v = "release-latest").
    { unfold PyStr.mem, tag_type_choices in Hv. cbn [existsb] in Hv.
      repeat (apply orb_true_iff in Hv as [Hv | Hv]);
        try (apply String.eqb_eq in Hv; auto). discriminate. }
    destruct Hcases as [-> | [-> | ->]].
    + rewrite (parse_args_app argv ns ["--tag-type"; "head"] _ H eq_refl).
      reflexivity.
    + rewrite (parse_args_app argv ns ["--tag-type"; "release"] _ H eq_refl).
      reflexivity.
    + rewrite (parse_args_app argv ns ["--tag-type"; "release-latest"] _ H eq_refl).
      reflexivity.
  - rewrite (parse_args_app argv ns ["--push"] _ H eq_refl). reflexivity.
  - intros v Hv Hpos.
    assert (Hc : classify_job ["--os"; v]
                 = Some [("--os", Argparse.PatO
                                    (Argparse.Tuple
                                       (Some (Argparse.StoreAction None set_os))
                                       "--os" None));
                         (v, Argparse.PatA)]).
    { cbn [Argparse.classify].
      change (String.eqb "--os" "--") with false.
      change (parse_optional_job "--os")
        with (Argparse.Optional
                (Argparse.Tuple (Some (Argparse.StoreAction None set_os))
                                "--os" (@None string))).
      cbv iota.
      destruct (String.eqb_spec v "--") as [E | _]; [contradiction | ].
      now rewrite Hpos. }
    rewrite (parse_args_app argv ns _ _ H Hc).
    cbn [Argparse.consume]. argp. rewrite get_values_one.
    destruct (String.eqb_spec v "--") as [E | _]; [contradiction | ].
    reflexivity.
Qed.

Lemma later_option_overrides_witness :
  parse_args (["--tag-type"; "head"; "--os"; "alpine"] ++ ["--tag-type"; "release"])
  = Argparse.Parsed (mkNamespace (VStr "release") false (VStr "alpine"))
  /\ parse_args (["--tag-type"; "head"; "--os"; "alpine"] ++ ["--os"; "ubuntu"])
     = Argparse.Parsed (mkNamespace (VStr "head") false (VStr "ubuntu")).
Proof.
  destruct (later_option_overrides ["--tag-type"; "head"; "--os"; "alpine"]
              (mkNamespace (VStr "head") false (VStr "alpine")) eq_refl)
    as (Ht & _ & Ho).
  split.
  - exact (Ht "release" eq_refl).
  - apply (Ho "ubuntu"); [discriminate | reflexivity].
Defined.

(* ------------------------------------------------------------------ *)
(** ** More on the registry login *)

(** X8: [docker_login(relogin=False)] consults the status probe first.
    When the probe succeeds the call is over: the secret store is not
    queried and no login is attempted.  When the probe fails the
    credential is fetched and the login command is run with it on its
    standard input. *)
Theorem docker_login_without_relogin env tr :
  (fst (shell env tr probe_command None) = 0%Z ->
   docker_login (Some false) env tr
   = (Ok tt, (tr ++ [Exec probe_command None])%list))
  /\ (fst (shell env tr probe_command None) <> 0%Z ->
      snd (docker_login (Some false) env tr)
      = (tr ++ [Exec probe_command None; SecretRead secret_key;
                Exec login_command (Some (credential env))])%list).
Proof.
  unfold docker_login, bind, ret, Shell.check, Secret.get_value, credential.
  destruct (shell env tr probe_command None) as [c o]; cbn [fst].
  split; intros Hc.
  - subst c. reflexivity.
  - destruct (Z.eqb_spec c 0) as [E | _]; [contradiction | ]. cbn [negb].
    destruct (shell env _ login_command _) as [c' o'].
    destruct (Z.eqb c' 0); cbn [snd]; rewrite <- !app_assoc; reflexivity.
Qed.

Lemma docker_login_without_relogin_witness :
  docker_login (Some false) env_ok [] = (Ok tt, [Exec probe_command None])
  /\ snd (docker_login (Some false) (env_failing probe_command) [])
     = [Exec probe_command None; SecretRead secret_key;
        Exec login_command (Some "s3cret")].
Proof.
  split.
  - exact (proj1 (docker_login_without_relogin env_ok []) eq_refl).
  - apply (proj2 (docker_login_without_relogin (env_failing probe_command) [])).
    vm_compute. discriminate.
Defined.

Lemma strict_check_cases c verbose stdin env tr :
  Shell.check c true verbose stdin env tr
  = (Ok true, (tr ++ [Exec c stdin])%list)
  \/ exists n, n <> 0%Z
               /\ Shell.check c true verbose stdin env tr
                  = (CommandFailed c n, (tr ++ [Exec c stdin])%list).
Proof.
  unfold Shell.check. destruct (shell env tr c stdin) as [n o].
  destruct (Z.eqb_spec n 0) as [-> | Hn]; [now left | right].
  exists n. now split.
Qed.

Lemma lenient_check_cases c verbose stdin env tr :
  exists b, Shell.check c false verbose stdin env tr
            = (Ok b, (tr ++ [Exec c stdin])%list).
Proof.
  unfold Shell.check. destruct (shell env tr c stdin) as [n o].
  destruct (Z.eqb n 0); eauto.
Qed.

(** X9: whatever [relogin] is, [docker_login] either returns normally or
    fails with the non-zero exit status of the login command, which is
    then the last thing it ran; a failing probe never ends the job. *)
Theorem docker_login_fails_only_on_login relogin env tr :
  fst (docker_login relogin env tr) = Ok tt
  \/ exists n before,
       n <> 0%Z
       /\ docker_login relogin env tr
          = (CommandFailed login_command n,
             (before ++ [Exec login_command (Some (credential env))])%list).
Proof.
  assert (Hlogin : forall tr0,
             let r := (password <- Secret.get_value secret_key Secret.AWS_SSM_VAR ;;
                       Shell.check login_command true false (Some password) ;;;
                       ret tt) env tr0 in
             fst r = Ok tt
             \/ exists n before,
                 n <> 0%Z
                 /\ r = (CommandFailed login_command n,
                         (before ++ [Exec login_command
                                       (Some (credential env))])%list)).
  { intros tr0. unfold bind, ret, Secret.get_value, credential. cbv zeta.
    destruct (strict_check_cases login_command false
                (Some (secret_store env secret_key)) env
                (tr0 ++ [SecretRead secret_key])%list) as [E | (n & Hn & E)];
      rewrite E; [now left | right].
    exists n, (tr0 ++ [SecretRead secret_key])%list. now split. }
  unfold docker_login.
  destruct relogin as [[|] |]; unfold bind, ret, Secret.get_value in *;
    cbv zeta in Hlogin.
  - exact (Hlogin tr).
  - destruct (lenient_check_cases probe_command false None env tr) as [b E].
    rewrite E. destruct b; cbn [negb]; [now left | exact (Hlogin _)].
  - exact (Hlogin tr).
Qed.

(* ------------------------------------------------------------------ *)
(** ** More on whole runs *)

(** X10: an accepted run ends with exit status 0 exactly when every
    command of it exited with status 0: the copy, the login when pushing,
    and the build. *)
Theorem job_succeeds_iff_all_commands_succeed argv ns env :
  parse_args argv = Argparse.Parsed ns ->
  fst (run argv env) = SysExit 0
  <-> (strict_ok (push ns) env /\ build_status (push ns) env = 0%Z).
Proof.
  intros H. by_shape H env.
  - split; [discriminate | ]. intros [[Hc _] _]. contradiction.
  - split; [discriminate | ]. intros [[_ Hl] _]. rewrite Hpush in Hl.
    now specialize (Hl eq_refl).
  - destruct (Z.eqb_spec (build_status (push ns) env) 0) as [E | E].
    + split; auto.
    + split; [discriminate | ]. intros [_ Hb]. contradiction.
Qed.

Lemma job_succeeds_iff_all_commands_succeed_witness :
  fst (run ["--push"] env_ok) = SysExit 0
  /\ fst (run ["--push"] (env_failing command)) <> SysExit 0.
Proof.
  split.
  - apply (job_succeeds_iff_all_commands_succeed ["--push"]
             (mkNamespace (VStr "head") true (VList ["ubuntu"; "alpine"]))
             env_ok eq_refl).
    split; [split; [reflexivity | intros _; reflexivity] | reflexivity].
  - intros Hrun.
    apply (job_succeeds_iff_all_commands_succeed ["--push"]
             (mkNamespace (VStr "head") true (VList ["ubuntu"; "alpine"]))
             (env_failing command) eq_refl) in Hrun.
    destruct Hrun as [_ Hb]. vm_compute in Hb. discriminate Hb.
Defined.

(** X11: the shell commands of a run are an initial part of the fixed
    sequence copy, login (when pushing), build, each run at most once;
    the sequence is run to its end exactly when the copy and the login
    did not fail. *)
Theorem commands_follow_pipeline argv ns env :
  parse_args argv = Argparse.Parsed ns ->
  (exists k, commands_of (snd (run argv env)) = firstn k (pipeline (push ns)))
  /\ (commands_of (snd (run argv env)) = pipeline (push ns)
      <-> strict_ok (push ns) env).
Proof.
  intros H. by_shape H env.
  - split; [exists 1; reflexivity | ].
    split.
    + unfold pipeline. destruct (push ns); discriminate.
    + intros [Hc _]. contradiction.
  - rewrite Hpush. split; [exists 2; reflexivity | ].
    split; [discriminate | ]. intros [_ Hl]. now specialize (Hl eq_refl).
  - unfold staged, pipeline.
    destruct (push ns);
      (split; [ | split; [intros _; exact Hok | reflexivity]]).
    + exists 3. reflexivity.
    + exists 2. reflexivity.
Qed.

Lemma commands_follow_pipeline_witness :
  commands_of (snd (run ["--push"] env_ok))
  = [copy_command; login_command; command].
Proof.
  apply (proj2 (commands_follow_pipeline ["--push"]
                  (mkNamespace (VStr "head") true (VList ["ubuntu"; "alpine"]))
                  env_ok eq_refl)).
  split; [reflexivity | intros _; reflexivity].
Defined.

(** X12: the only secret a run ever asks for is dockerhub_robot_password,
    and whenever it is read the very next thing the run does is the login
    command, with the value read as its standard input. *)
Theorem secret_read_feeds_login argv env before k after :
  snd (run argv env) = (before ++ SecretRead k :: after)%list ->
  k = secret_key
  /\ exists rest,
       after = Exec login_command (Some (secret_store env k)) :: rest.
Proof.
  intros Htr.
  destruct (parse_args argv) as [ns | st] eqn:H.
  - revert Htr. by_shape H env; unfold staged, credential;
      try destruct (push ns); cbn [app]; intros Htr;
      repeat (destruct before as [| ? before]; cbn [app] in Htr;
              [ first [ discriminate Htr
                      | injection Htr as <- <-;
                        split; [reflexivity | eexists; reflexivity] ]
              | injection Htr as _ Htr ]);
      destruct before; cbn [app] in Htr; discriminate Htr.
  - rewrite (run_rejected _ _ _ H) in Htr.
    destruct before; cbn [app snd] in Htr; discriminate Htr.
Qed.

Lemma secret_read_feeds_login_witness :
  exists rest,
    [Exec login_command (Some "s3cret"); Exec command None;
     Report (built_job true env_ok)]
    = Exec login_command (Some (secret_store env_ok secret_key)) :: rest.
Proof.
  exact (proj2 (secret_read_feeds_login ["--push"] env_ok
                  [Exec copy_command None] secret_key
                  [Exec login_command (Some "s3cret"); Exec command None;
                   Report (built_job true env_ok)]
                  eq_refl)).
Defined.
